(** * skorch utilities and scoring callbacks: a shallow embedding

    The development follows [skorch/utils.py],
    [skorch/callbacks/scoring.py] and the callbacks of
    [examples/word_language_model/train.py].  Python values are a single
    inductive type dispatched on by constructor, the way the source
    dispatches with [isinstance]; exceptions are an explicit result
    type; the callbacks run in a small state-and-error monad over the
    net's history, the callback's fitted attributes and the warnings
    that were emitted.

    Floating point numbers are idealised as exact rationals ([Qc]):
    rounding is not modelled. *)

From Stdlib Require Import ZArith QArith Qcanon String List Lia.
From stdpp Require Import base tactics option list strings gmap.

Local Open Scope Z_scope.

(** ** Exceptions and results *)

Inductive exn : Set :=
| KeyError
| TypeError
| IndexError
| ValueError
| AttributeError
| ZeroDivisionError
| RuntimeError.

Global Instance exn_eq_dec : EqDecision exn.
Proof. solve_decision. Defined.

Inductive result (A : Type) : Type :=
| Ok (a : A)
| Raise (e : exn).
Global Arguments Ok {A} a.
Global Arguments Raise {A} e.

Global Instance result_ret : MRet result := @Ok.
Global Instance result_bind : MBind result := λ A B f m,
  match m with
  | Ok a => f a
  | Raise e => Raise e
  end.
Global Instance result_fmap : FMap result := λ A B f m,
  match m with
  | Ok a => Ok (f a)
  | Raise e => Raise e
  end.

(** A Python comprehension [[f(x) for x in l]]: elements are evaluated
    in order and the first exception ends the evaluation. *)
Section comprehension.
Context {A B : Type} (f : A → result B).

Fixpoint comprehension (l : list A) : result (list B) :=
  match l with
  | [] => Ok []
  | x :: r =>
      match f x with
      | Ok y =>
          match comprehension r with
          | Ok ys => Ok (y :: ys)
          | Raise e => Raise e
          end
      | Raise e => Raise e
      end
  end.
End comprehension.

(** [try: body except exc: handler] on a pure computation. *)
Definition try_except {A} (body : result A) (exc : exn) (handler : result A)
  : result A :=
  match body with
  | Raise e => if decide (e = exc) then handler else Raise e
  | ok => ok
  end.

Module Utils.

(** ** Python values *)

(** numpy dtypes.  [dt_int] is numpy's default integer ([np.dtype(int)],
    64 bits wide), the only dtype that compares equal to the builtin
    [int]. *)
Inductive dtype : Set :=
| dt_bool
| dt_int
| dt_int32
| dt_uint64
| dt_float
| dt_str
| dt_object.

Global Instance dtype_eq_dec : EqDecision dtype.
Proof. solve_decision. Defined.

(** The values the utilities dispatch on.  An array or a tensor is its
    dtype and its items along the first axis, laid out contiguously (a
    view with negative strides, which torch refuses to share, is not a
    value of the model); a tensor also carries its device. *)
#[warnings="-register-all"]
Inductive pyval : Type :=
| PNone
| PBool (b : bool)
| PInt (z : Z)
| PFloat (q : Qc)
| PStr (s : string)
| PSlice (start stop step : option Z)
| PList (l : list pyval)
| PTuple (l : list pyval)
| PDict (kvs : list (pyval * pyval))     (* items in insertion order *)
| PNdarray (dt : dtype) (items : list pyval)
| PTensor (cuda : bool) (dt : dtype) (items : list pyval)
| PVariable (data : pyval)
| PPackedSequence (data batch_sizes : pyval)   (* a named tuple *)
| PFrame (rows : list pyval).             (* pandas NDFrame, by position *)

(** Induction over values that reaches inside lists and dict items. *)
Section pyval_induction.
Variable P : pyval → Prop.
Hypothesis HNone : P PNone.
Hypothesis HBool : ∀ b, P (PBool b).
Hypothesis HInt : ∀ z, P (PInt z).
Hypothesis HFloat : ∀ q, P (PFloat q).
Hypothesis HStr : ∀ s, P (PStr s).
Hypothesis HSlice : ∀ a b c, P (PSlice a b c).
Hypothesis HList : ∀ l, Forall P l → P (PList l).
Hypothesis HTuple : ∀ l, Forall P l → P (PTuple l).
Hypothesis HDict :
  ∀ kvs, Forall (λ kv, P kv.1 ∧ P kv.2) kvs → P (PDict kvs).
Hypothesis HNdarray : ∀ dt l, Forall P l → P (PNdarray dt l).
Hypothesis HTensor : ∀ c dt l, Forall P l → P (PTensor c dt l).
Hypothesis HVariable : ∀ d, P d → P (PVariable d).
Hypothesis HPacked : ∀ d b, P d → P b → P (PPackedSequence d b).
Hypothesis HFrame : ∀ l, Forall P l → P (PFrame l).

Fixpoint pyval_nested_ind (v : pyval) : P v :=
  let all :=
    fix all (l : list pyval) : Forall P l :=
      match l with
      | [] => @List.Forall_nil _ P
      | x :: r => @List.Forall_cons _ P x r (pyval_nested_ind x) (all r)
      end in
  match v with
  | PNone => HNone
  | PBool b => HBool b
  | PInt z => HInt z
  | PFloat q => HFloat q
  | PStr s => HStr s
  | PSlice a b c => HSlice a b c
  | PList l => HList l (all l)
  | PTuple l => HTuple l (all l)
  | PDict kvs =>
      HDict kvs
        ((fix items (l : list (pyval * pyval))
            : Forall (λ kv, P kv.1 ∧ P kv.2) l :=
            match l with
            | [] => @List.Forall_nil _ _
            | kv :: r =>
                @List.Forall_cons _ (λ kv, P kv.1 ∧ P kv.2) kv r
                  (conj (pyval_nested_ind kv.1) (pyval_nested_ind kv.2))
                  (items r)
            end) kvs)
  | PNdarray dt l => HNdarray dt l (all l)
  | PTensor c dt l => HTensor c dt l (all l)
  | PVariable d => HVariable d (pyval_nested_ind d)
  | PPackedSequence d b =>
    HPacked d b (pyval_nested_ind d) (pyval_nested_ind b)
  | PFrame l => HFrame l (all l)
  end.
End pyval_induction.

(** ** Builtin sequence indexing *)

(** [l[i]] for an integer [i]: negative positions count from the end. *)
Definition py_index {A} (l : list A) (i : Z) : result A :=
  let n := Z.of_nat (length l) in
  let j := if i <? 0 then i + n else i in
  if (0 <=? j) && (j <? n) then
    match l !! Z.to_nat j with
    | Some x => Ok x
    | None => Raise IndexError
    end
  else Raise IndexError.

(** [slice.indices(n)]: defaults filled in and bounds clipped. *)
Definition slice_adjust (step n : Z) (bound : option Z) (default : Z) : Z :=
  match bound with
  | None => default
  | Some b =>
      if b <? 0 then
        let b' := b + n in
        if b' <? 0 then (if step <? 0 then -1 else 0) else b'
      else if n <=? b then (if step <? 0 then n - 1 else n)
      else b
  end.

Definition slice_indices (start stop step : option Z) (n : Z)
  : result (Z * Z * Z) :=
  let st := default 1 step in
  if st =? 0 then Raise ValueError
  else
    let lo := slice_adjust st n start (if st <? 0 then n - 1 else 0) in
    let hi := slice_adjust st n stop (if st <? 0 then -1 else n) in
    Ok (lo, hi, st).

(** The positions [range(lo, hi, st)] visits. *)
Definition range_positions (lo hi st : Z) : list Z :=
  let len :=
    if 0 <? st then (if lo <? hi then (hi - lo - 1) / st + 1 else 0)
    else (if hi <? lo then (lo - hi - 1) / (- st) + 1 else 0) in
  (λ k, lo + k * st) <$> seqZ 0 len.

(** The items [l[start:stop:step]] selects, for a non-zero step. *)
Definition slice_items {A} (l : list A) (start stop step : option Z)
  : list A :=
  let n := Z.of_nat (length l) in
  let st := default 1 step in
  let lo := slice_adjust st n start (if st <? 0 then n - 1 else 0) in
  let hi := slice_adjust st n stop (if st <? 0 then -1 else n) in
  omap (λ p, l !! Z.to_nat p) (range_positions lo hi st).

(** [l[start:stop:step]]. *)
Definition py_slice {A} (l : list A) (start stop step : option Z)
  : result (list A) :=
  match slice_indices start stop step (Z.of_nat (length l)) with
  | Ok (lo, hi, st) =>
      Ok (omap (λ p, l !! Z.to_nat p) (range_positions lo hi st))
  | Raise e => Raise e
  end.

(** A string as the sequence of its one-character strings. *)
Definition str_items (s : string) : list pyval :=
  (λ c, PStr (String c EmptyString)) <$> list_ascii_of_string s.

Definition str_join (l : list pyval) : pyval :=
  PStr (fold_right
          (λ v acc, match v with PStr s => String.append s acc | _ => acc end)
          EmptyString l).

(** [seq[i]] for the builtin sequences: an integer picks an item, a
    slice builds a sequence of the same type, anything else is a
    [TypeError]. *)
Definition seq_getitem (wrap : list pyval → pyval) (l : list pyval)
    (i : pyval) : result pyval :=
  match i with
  | PInt z => py_index l z
  | PBool b => py_index l (Z.b2z b)
  | PSlice a b c => wrap <$> py_slice l a b c
  | _ => Raise TypeError
  end.

(** ** Hashing and equality of keys *)

(** Python compares set elements and dict keys with [==] after
    hashing: [True == 1 == 1.0].  Lists, dicts, slices, arrays and frames
    are unhashable.  Two kinds of hashable value are left out and treated
    as unhashable: tuples (none reaches a set in [duplicate_items], which
    flattens them) and torch objects (they hash by identity, which values
    do not carry). *)
Inductive hkey : Type :=
| KNone
| KNum (q : Qc)
| KStr (s : string).

Global Instance hkey_eq_dec : EqDecision hkey.
Proof. solve_decision. Defined.

Definition hash_key (v : pyval) : result hkey :=
  match v with
  | PNone => Ok KNone
  | PBool b => Ok (KNum (Qc_of_Z (Z.b2z b)))
  | PInt z => Ok (KNum (Qc_of_Z z))
  | PFloat q => Ok (KNum q)
  | PStr s => Ok (KStr s)
  | _ => Raise TypeError
  end.

(** Whether [v] hashes and compares equal to the key [k]. *)
Definition same_key (k : hkey) (v : pyval) : bool :=
  match hash_key v with
  | Ok k' => bool_decide (k' = k)
  | Raise _ => false
  end.

(** [d[k]] on a dict. *)
Fixpoint dict_lookup (kvs : list (pyval * pyval)) (k : hkey) : result pyval :=
  match kvs with
  | [] => Raise KeyError
  | (k', v) :: r =>
      if same_key k k' then Ok v else dict_lookup r k
  end.

(** ** numpy and torch indexing (library behaviour) *)

(** Follow one coordinate vector down nested arrays. *)
Definition array_at (v : pyval) (coord : list Z) : result pyval :=
  fold_left
    (λ acc c,
       match acc with
       | Ok (PNdarray _ items) | Ok (PTensor _ _ items) => py_index items c
       | Ok _ => Raise IndexError
       | Raise e => Raise e
       end)
    coord (Ok v).

Definition int_of (v : pyval) : result Z :=
  match v with
  | PInt z => Ok z
  | PBool b => Ok (Z.b2z b)
  | _ => Raise IndexError
  end.

Definition ints_of (v : pyval) : result (list Z) :=
  match v with
  | PList l | PTuple l => comprehension int_of l
  | _ => Raise IndexError
  end.

(** Transpose index lists into coordinate vectors, as Python's star-zip does. *)
Fixpoint zip_star {A} (ls : list (list A)) : list (list A) :=
  match ls with
  | [] => []
  | [l] => (λ x, [x]) <$> l
  | l :: r => zip_with cons l (zip_star r)
  end.

(** [a[i]] for an array or tensor whose items are [items]: integers and
    slices act on the first axis, a list of integers picks rows, a tuple
    of index lists picks by coordinates, a boolean scalar adds an
    axis. *)
Definition array_getitem (wrap : list pyval → pyval) (items : list pyval)
    (i : pyval) : result pyval :=
  match i with
  | PInt z => py_index items z
  | PBool b => Ok (wrap (if b then [wrap items] else []))
  | PSlice a b c => wrap <$> py_slice items a b c
  | PList idx =>
      zs ← comprehension int_of idx;
      wrap <$> comprehension (py_index items) zs
  | PTuple idxs =>
      cols ← comprehension ints_of idxs;
      wrap <$> comprehension (array_at (wrap items)) (zip_star cols)
  | _ => Raise IndexError
  end.

(** [t[i]] for a torch tensor: as for an array, except that torch
    refuses a slice with a negative step, with a [ValueError]. *)
Definition tensor_getitem (wrap : list pyval → pyval) (items : list pyval)
    (i : pyval) : result pyval :=
  match i with
  | PSlice _ _ (Some step) =>
      if step <? 0 then Raise ValueError else array_getitem wrap items i
  | _ => array_getitem wrap items i
  end.

(** [data[i]], by the runtime type of [data]. *)
Definition getitem (data i : pyval) : result pyval :=
  match data with
  | PList l => seq_getitem PList l i
  | PTuple l => seq_getitem PTuple l i
  | PStr s => seq_getitem str_join (str_items s) i
  | PDict kvs => k ← hash_key i; dict_lookup kvs k
  | PNdarray dt items => array_getitem (PNdarray dt) items i
  | PTensor c dt items => tensor_getitem (PTensor c dt) items i
  | PVariable (PTensor c dt items) =>
      tensor_getitem (λ l, PVariable (PTensor c dt l)) items i
  | PPackedSequence d b => seq_getitem PTuple [d; b] i
  | PFrame rows =>
      match i with
      | PSlice a b c => PFrame <$> py_slice rows a b c
      | _ => Raise KeyError
      end
  | PNone | PBool _ | PInt _ | PFloat _ | PSlice _ _ _ | PVariable _ =>
      Raise TypeError
  end.

(** ** Type tests of [utils.py] *)

Definition is_torch_data_type (x : pyval) : bool :=
  match x with
  | PTensor _ _ _ | PVariable _ => true
  | _ => false
  end.

(** [hasattr(x, 'iloc')] *)
Definition is_pandas_ndframe (x : pyval) : bool :=
  match x with
  | PFrame _ => true
  | _ => false
  end.

(** [isinstance(X, collections.abc.Sequence)] *)
Definition is_Sequence (x : pyval) : bool :=
  match x with
  | PList _ | PTuple _ | PStr _ | PPackedSequence _ _ => true
  | _ => false
  end.

(** [np.isscalar(X)] *)
Definition np_isscalar (x : pyval) : bool :=
  match x with
  | PBool _ | PInt _ | PFloat _ | PStr _ => true
  | _ => false
  end.

(** ** numpy and torch constructors (library behaviour) *)

(** The dtype numpy gives a Python scalar.  An integer is a 64-bit
    integer when it fits, an unsigned one when it fits that instead, and
    a Python object otherwise. *)
Definition scalar_dtype (x : pyval) : dtype :=
  match x with
  | PBool _ => dt_bool
  | PInt z =>
      if (- 2 ^ 63 <=? z) && (z <? 2 ^ 63) then dt_int
      else if (0 <=? z) && (z <? 2 ^ 64) then dt_uint64
      else dt_object
  | PFloat _ => dt_float
  | PStr _ => dt_str
  | _ => dt_object
  end.

(** Position of a numeric dtype in numpy's promotion order. *)
Definition dtype_rank (d : dtype) : option nat :=
  match d with
  | dt_bool => Some 0%nat
  | dt_int32 => Some 1%nat
  | dt_int => Some 2%nat
  | dt_uint64 => Some 3%nat
  | dt_float => Some 4%nat
  | dt_str | dt_object => None
  end.

Definition is_signed (d : dtype) : bool :=
  match d with
  | dt_int | dt_int32 => true
  | _ => false
  end.

(** The dtype of an array that holds items of both dtypes: the larger
    of two numeric dtypes, except that a signed and an unsigned 64-bit
    integer only meet in a float. *)
Definition dtype_join (a b : dtype) : dtype :=
  if (is_signed a && bool_decide (b = dt_uint64))
     || (bool_decide (a = dt_uint64) && is_signed b)
  then dt_float
  else
    match dtype_rank a, dtype_rank b with
    | Some m, Some n => if (m <? n)%nat then b else a
    | _, _ => if decide (a = b) then a else dt_object
    end.

(** [np.array(x)]: a sequence becomes an array of its items, anything
    else a single-item array. *)
Definition np_array (x : pyval) : pyval :=
  match x with
  | PList [] | PTuple [] => PNdarray dt_float []
  | PList l | PTuple l =>
      PNdarray (foldr (λ v d, dtype_join (scalar_dtype v) d) dt_bool l) l
  | PNdarray dt l => PNdarray dt l
  | _ => PNdarray (scalar_dtype x) [x]
  end.

(** The dtypes [torch.from_numpy] accepts. *)
Definition torch_supports (dt : dtype) : bool :=
  match dt with
  | dt_int | dt_int32 | dt_float => true
  | dt_bool | dt_uint64 | dt_str | dt_object => false
  end.

(** [torch.from_numpy(a)]: a CPU tensor over the array's items. *)
Definition from_numpy (a : pyval) : result pyval :=
  match a with
  | PNdarray dt items =>
      if torch_supports dt then Ok (PTensor false dt items)
      else Raise TypeError
  | _ => Raise TypeError
  end.

(** ** [to_numpy] *)

(** [X.values] of a frame is the array of its rows: rows of one scalar
    type keep that dtype. *)
Definition to_numpy (X : pyval) : result pyval :=
  match X with
  | PNdarray _ _ => Ok X
  | PFrame rows => Ok (np_array (PList rows))
  | PTensor _ dt items | PVariable (PTensor _ dt items) =>
      Ok (PNdarray dt items)
  | PVariable _ => Raise AttributeError
  | _ => Raise TypeError
  end.

(** ** [to_tensor] *)

Section device.
(** Whether the machine has a GPU that torch can use. *)
Variable gpu : bool.

(** [X.cuda()]: the tensor on the GPU; without a GPU torch fails with a
    [RuntimeError]. *)
Definition cuda (x : pyval) : result pyval :=
  match x with
  | PTensor _ dt items =>
      if gpu then Ok (PTensor true dt items) else Raise RuntimeError
  | PVariable (PTensor _ dt items) =>
      if gpu then Ok (PVariable (PTensor true dt items))
      else Raise RuntimeError
  | _ => Raise AttributeError
  end.

(** The part of [to_tensor] below the container cases. *)
Definition to_tensor_leaf (X : pyval) (use_cuda : bool) : result pyval :=
  X ← (match X with
       | PNdarray _ _ => from_numpy X
       | _ => Ok X
       end);
  X ← (if is_Sequence X then from_numpy (np_array X)
       else if np_isscalar X then from_numpy (np_array (PList [X]))
       else Ok X);
  if negb (is_torch_data_type X) then Raise TypeError
  else if use_cuda then cuda X
  else Ok X.

Fixpoint to_tensor (X : pyval) (use_cuda : bool) {struct X} : result pyval :=
  match X with
  | PVariable _ | PPackedSequence _ _ => Ok X
  | PDict kvs =>
      PDict <$>
        comprehension
          (λ kv, match to_tensor kv.2 use_cuda with
                 | Ok val => Ok (kv.1, val)
                 | Raise e => Raise e
                 end)
          kvs
  | PList l | PTuple l =>
      PList <$> comprehension (λ x, to_tensor x use_cuda) l
  | _ => to_tensor_leaf X use_cuda
  end.

End device.

(** [isinstance]-free reading of "a sequence": the values a slice
    applies to item-wise. *)
Definition is_sequence (v : pyval) : bool :=
  match v with
  | PList _ | PTuple _ | PStr _ | PNdarray _ _ | PTensor _ _ _ => true
  | _ => false
  end.

(** The value [v[start:stop:step]] of a sequence [v]: the same kind of
    sequence over the selected items. *)
Definition sliced (start stop step : option Z) (v : pyval) : pyval :=
  match v with
  | PList l => PList (slice_items l start stop step)
  | PTuple l => PTuple (slice_items l start stop step)
  | PStr s => str_join (slice_items (str_items s) start stop step)
  | PNdarray dt l => PNdarray dt (slice_items l start stop step)
  | PTensor c dt l => PTensor c dt (slice_items l start stop step)
  | _ => v
  end.

(** The slices a sequence accepts.  The builtin sequences and numpy
    arrays take any non-zero step.  A torch tensor takes a positive step
    only; the versions of torch that have no empty tensors also refuse a
    slice that selects nothing, so that case is left out. *)
Definition sliceable (start stop step : option Z) (v : pyval) : bool :=
  is_sequence v
  && negb (default 1 step =? 0)
  && match v with
     | PTensor _ _ items =>
         (0 <? default 1 step)
         && match slice_items items start stop step with
            | [] => false
            | _ :: _ => true
            end
     | _ => true
     end.

(** ** [flatten] and [duplicate_items] *)

(** What the loop body of [flatten] yields for one [item]; iterating a
    dict visits its keys. *)
Fixpoint flatten_item (item : pyval) : list pyval :=
  match item with
  | PList l | PTuple l => flat_map flatten_item l
  | PPackedSequence d b => flatten_item d ++ flatten_item b
  | PDict kvs => flat_map (λ kv, flatten_item kv.1) kvs
  | _ => [item]
  end.

(** [flatten(arr)], for [arr] given by the items it iterates over. *)
Definition flatten (arr : list pyval) : list pyval :=
  flat_map flatten_item arr.

(** A Python set, by its distinct elements in insertion order. *)
Abbreviation pyset := (list pyval).

(** [item in s] *)
Definition set_contains (s : pyset) (item : pyval) : result bool :=
  k ← hash_key item;
  Ok (existsb (same_key k) s).

(** [s.add(item)] *)
Definition set_add (s : pyset) (item : pyval) : result pyset :=
  b ← set_contains s item;
  Ok (if b : bool then s else s ++ [item]).

(** One turn of the loop in [duplicate_items], on [(duplicates, seen)]. *)
Definition duplicate_step (acc : result (pyset * pyset)) (item : pyval)
  : result (pyset * pyset) :=
  match acc with
  | Raise e => Raise e
  | Ok (duplicates, seen) =>
      b ← set_contains seen item;
      if b : bool then
        duplicates ← set_add duplicates item; Ok (duplicates, seen)
      else
        seen ← set_add seen item; Ok (duplicates, seen)
  end.

Definition duplicate_items (collections : list pyval) : result pyset :=
  fst <$> fold_left duplicate_step (flatten collections) (Ok ([], [])).

(** How many of the items [l] hash and compare equal to the key [k]. *)
Fixpoint occurrences (k : hkey) (l : list pyval) : nat :=
  match l with
  | [] => 0
  | v :: r => (if same_key k v then 1 else 0) + occurrences k r
  end.

(** ** [multi_indexing] *)

(** [a.tolist()] *)
Fixpoint tolist (a : pyval) : pyval :=
  match a with
  | PNdarray _ items => PList (map tolist items)
  | _ => a
  end.

Definition truthy (v : pyval) : bool :=
  match v with
  | PNone => false
  | PBool b => b
  | PInt z => negb (z =? 0)
  | PFloat q => negb (bool_decide (q = 0%Qc))
  | PStr s => negb (bool_decide (s = EmptyString))
  | _ => true
  end.

(** Coordinates of the non-zero entries of an array, row-major. *)
Fixpoint nonzero_coords (a : pyval) : list (list Z) :=
  match a with
  | PNdarray _ items =>
      (fix rows (i : Z) (l : list pyval) : list (list Z) :=
         match l with
         | [] => []
         | x :: r => (cons i <$> nonzero_coords x) ++ rows (i + 1) r
         end) 0 items
  | _ => if truthy a then [[]] else []
  end.

Fixpoint ndim (a : pyval) : nat :=
  match a with
  | PNdarray _ [] => 1
  | PNdarray _ (x :: _) => S (ndim x)
  | _ => 0
  end.

(** [a.nonzero()] with [tolist()] applied to each part: one list of
    positions per axis. *)
Definition nonzero (a : pyval) : list pyval :=
  let coords := nonzero_coords a in
  (λ k, PList ((λ c, PInt (default 0 (c !! k))) <$> coords))
    <$> seq 0 (ndim a).

(** The first statement of [multi_indexing]: an index array becomes a
    tuple of position lists (boolean mask), a list (integers), or is
    rejected. *)
Definition index_of_array (i : pyval) : result pyval :=
  match i with
  | PNdarray dt _ =>
      if decide (dt = dt_bool) then Ok (PTuple (nonzero i))
      else if decide (dt = dt_int) then Ok (tolist i)
      else Raise IndexError
  | _ => Ok i
  end.

(** [data.iloc[i]]: rows by position. *)
Definition iloc (data i : pyval) : result pyval :=
  match data with
  | PFrame rows =>
      match i with
      | PInt z => py_index rows z
      | PSlice a b c => PFrame <$> py_slice rows a b c
      | PList idx | PTuple [PList idx] =>
          zs ← comprehension int_of idx;
          PFrame <$> comprehension (py_index rows) zs
      | _ => Raise TypeError
      end
  | _ => Raise AttributeError
  end.

(** [sklearn.utils.safe_indexing(X, indices)] *)
Definition safe_indexing (X indices : pyval) : result pyval :=
  match X with
  | PFrame _ => iloc X indices
  | PNdarray _ _ | PTensor _ _ _ | PVariable _ => getitem X indices
  | _ =>
      match indices with
      | PList l | PTuple l => PList <$> comprehension (getitem X) l
      | _ => Raise TypeError
      end
  end.

(** [isinstance(i, (int, np.integer, slice))] *)
Definition is_int_or_slice (i : pyval) : bool :=
  match i with
  | PInt _ | PBool _ | PSlice _ _ _ => true
  | _ => false
  end.

(** [multi_indexing] from the pandas test on. *)
Definition multi_indexing_tail (data i : pyval) : result pyval :=
  if is_pandas_ndframe data then iloc data i
  else if is_int_or_slice i then getitem data i
  else safe_indexing data i.

Fixpoint multi_indexing (data i : pyval) {struct data} : result pyval :=
  match index_of_array i with
  | Raise e => Raise e
  | Ok i =>
      match data with
      | PDict kvs =>
          PDict <$>
            comprehension
              (λ kv, match getitem kv.2 i with
                     | Ok v => Ok (kv.1, v)
                     | Raise e => Raise e
                     end)
              kvs
      | PList l | PTuple l =>
          match comprehension (λ x, multi_indexing x i) l with
          | Ok r => Ok (PList r)
          | Raise TypeError => multi_indexing_tail data i
          | Raise e => Raise e
          end
      | PPackedSequence d b =>
          match comprehension (λ x, multi_indexing x i) [d; b] with
          | Ok r => Ok (PList r)
          | Raise TypeError => multi_indexing_tail data i
          | Raise e => Raise e
          end
      | _ => multi_indexing_tail data i
      end
  end.

(** ** [params_for] *)

(** [s.startswith(p)] *)
Fixpoint startswith (s p : string) {struct p} : bool :=
  match p, s with
  | EmptyString, _ => true
  | String c p', String d s' => Ascii.eqb c d && startswith s' p'
  | String _ _, EmptyString => false
  end.

(** [s[n:]] *)
Fixpoint drop_chars (n : nat) (s : string) {struct n} : string :=
  match n, s with
  | O, _ => s
  | S n', String _ s' => drop_chars n' s'
  | S _, EmptyString => EmptyString
  end.

(** [s.endswith(p)] *)
Definition endswith (s p : string) : bool :=
  (String.length p <=? String.length s)%nat
  && bool_decide (drop_chars (String.length s - String.length p) s = p).

(** The first statement of [params_for]: the prefix ends in two
    underscores, appended when missing. *)
Definition full_prefix (prefix : string) : string :=
  if negb (endswith prefix "__") then prefix +:+ "__" else prefix.

(** [kwargs] is a dict with string keys, given by its items in
    insertion order. *)
Definition params_for {V : Type} (prefix : string) (kwargs : list (string * V))
  : list (string * V) :=
  let prefix := full_prefix prefix in
  omap (λ kv, if startswith kv.1 prefix
              then Some (drop_chars (String.length prefix) kv.1, kv.2)
              else None)
       kwargs.

(** ** [to_var] *)

(** A comprehension whose body is bounded by fuel: [None] when the fuel
    of some item ran out before an exception ended the evaluation. *)
Section comprehension_fuel.
Context {A B : Type} (f : A → option (result B)).

Fixpoint comprehension_fuel (l : list A) : option (result (list B)) :=
  match l with
  | [] => Some (Ok [])
  | x :: r =>
      match f x with
      | Some (Ok y) =>
          match comprehension_fuel r with
          | Some (Ok ys) => Some (Ok (y :: ys))
          | Some (Raise e) => Some (Raise e)
          | None => None
          end
      | Some (Raise e) => Some (Raise e)
      | None => None
      end
  end.
End comprehension_fuel.

(** [to_var] calls itself on the items of what [to_tensor] returned,
    which are no parts of its argument, so the recursion is bounded by
    [fuel]; [None] stands for fuel that ran out.  A PackedSequence is a
    named tuple, hence an instance of [tuple]. *)
Fixpoint to_var (gpu : bool) (fuel : nat) (X : pyval) (use_cuda : bool)
    {struct fuel} : option (result pyval) :=
  match fuel with
  | O => None
  | S fuel =>
      match X with
      | PVariable _ | PPackedSequence _ _ => Some (Ok X)
      | _ =>
          match to_tensor gpu X use_cuda with
          | Raise e => Some (Raise e)
          | Ok (PDict kvs) =>
              fmap (M := result) PDict <$>
                comprehension_fuel
                  (λ kv, fmap (M := result) (pair kv.1)
                           <$> to_var gpu fuel kv.2 use_cuda)
                  kvs
          | Ok (PList l) | Ok (PTuple l) =>
              fmap (M := result) PList <$>
                comprehension_fuel (λ x, to_var gpu fuel x use_cuda) l
          | Ok (PPackedSequence d b) =>
              fmap (M := result) PList <$>
                comprehension_fuel (λ x, to_var gpu fuel x use_cuda) [d; b]
          | Ok X => Some (Ok (PVariable X))
          end
      end
  end.

(** ** Shapes of converted values *)

(** What [to_tensor] leaves behind: torch values, in lists and as dict
    values. *)
Fixpoint converted (v : pyval) : bool :=
  match v with
  | PTensor _ _ _ | PVariable _ | PPackedSequence _ _ => true
  | PList l => forallb converted l
  | PDict kvs => forallb (λ kv, converted kv.2) kvs
  | _ => false
  end.

(** Every tensor that is not wrapped in a Variable is on the GPU. *)
Fixpoint tensors_on_cuda (v : pyval) : bool :=
  match v with
  | PTensor c _ _ => c
  | PList l | PTuple l => forallb tensors_on_cuda l
  | PDict kvs => forallb (λ kv, tensors_on_cuda kv.2) kvs
  | _ => true
  end.

(** A converted value with every tensor that is not yet inside a
    Variable wrapped in one, in lists and dict values. *)
Fixpoint variables (v : pyval) : pyval :=
  match v with
  | PTensor _ _ _ => PVariable v
  | PList l => PList (variables <$> l)
  | PDict kvs => PDict ((λ kv, (kv.1, variables kv.2)) <$> kvs)
  | _ => v
  end.

(** [isinstance(item, (tuple, list, dict))] *)
Definition is_container (v : pyval) : bool :=
  match v with
  | PList _ | PTuple _ | PDict _ | PPackedSequence _ _ => true
  | _ => false
  end.

(** An array or a tensor. *)
Definition is_array (v : pyval) : bool :=
  match v with
  | PNdarray _ _ | PTensor _ _ _ => true
  | _ => false
  end.

(** A number: what Python cannot subscript. *)
Definition is_number (v : pyval) : bool :=
  match v with
  | PBool _ | PInt _ | PFloat _ => true
  | _ => false
  end.

(** The positions, counted from [i], at which [mask] is true. *)
Fixpoint true_positions (i : Z) (mask : list pyval) : list Z :=
  match mask with
  | [] => []
  | m :: r =>
      if truthy m then i :: true_positions (i + 1) r
      else true_positions (i + 1) r
  end.

(** The items of [items] at the positions where [mask] is true. *)
Fixpoint masked (items mask : list pyval) : list pyval :=
  match items, mask with
  | x :: items', m :: mask' =>
      if truthy m then x :: masked items' mask' else masked items' mask'
  | _, _ => []
  end.

End Utils.

(** ** The history log *)

Module History.

(** Values recorded in the log: scores, flags and batch sizes. *)
Inductive hval : Type :=
| HNum (q : Qc)
| HBool (b : bool)
| HInt (n : Z).

(** The number numpy reads in a recorded value. *)
Definition hnum (v : hval) : Qc :=
  match v with
  | HNum q => q
  | HBool b => Qc_of_Z (Z.b2z b)
  | HInt n => Qc_of_Z n
  end.

(** Modelled from the spec: the history log, whose class is not among
    the sources.  It is an ordered sequence of epoch records; an epoch
    record maps metric names to values and holds the ordered sequence of
    its batch records. *)
Record epoch : Type := Epoch {
  fields : gmap string hval;
  batches : list (gmap string hval);
}.

Abbreviation history := (list epoch).

(** Apply [f] to the last item of a list, as an assignment through
    [l[-1]] does; there must be one. *)
Fixpoint on_last {A} (f : A → result A) (l : list A) : result (list A) :=
  match l with
  | [] => Raise IndexError
  | [x] => x' ← f x; Ok [x']
  | x :: r => r' ← on_last f r; Ok (x :: r')
  end.

(** Modelled from the spec: [history.record(attr, value)] writes into
    the last epoch record. *)
Definition record (attr : string) (value : hval) (h : history)
  : result history :=
  on_last (λ e, Ok (Epoch (<[attr := value]> (fields e)) (batches e))) h.

(** Modelled from the spec: [history.record_batch(attr, value)] writes
    into the last batch record of the last epoch. *)
Definition record_batch (attr : string) (value : hval) (h : history)
  : result history :=
  on_last
    (λ e, bs ← on_last (λ b, Ok (<[attr := value]> b)) (batches e);
          Ok (Epoch (fields e) bs))
    h.

(** The values a batch record holds for [keys], when it has them all. *)
Definition batch_row (keys : list string) (b : gmap string hval)
  : option (list hval) :=
  mapM (λ k, b !! k) keys.

(** Modelled from the spec: the query [history[-1, 'batches', :, keys]]
    gives one row per batch record of the last epoch that has the keys;
    when no batch record has them, the metric is missing ([KeyError]). *)
Definition last_batches (h : history) (keys : list string)
  : result (list (list hval)) :=
  match last h with
  | None => Raise IndexError
  | Some e =>
      match omap (batch_row keys) (batches e) with
      | [] => Raise KeyError
      | rows => Ok rows
      end
  end.

(** The field [k] of the epoch at position [i], if recorded. *)
Definition field_at (h : history) (i : nat) (k : string) : option hval :=
  e ← h !! i; fields e !! k.

End History.

(** ** Scoring callbacks *)

Module Scoring.
Import Utils History.

(** A best score: a number or one of numpy's infinities. *)
Inductive xnum : Type :=
| NegInf
| Fin (q : Qc)
| PosInf.

Definition xltb (a b : xnum) : bool :=
  match a, b with
  | NegInf, NegInf => false
  | NegInf, _ => true
  | Fin x, Fin y => bool_decide (x < y)%Qc
  | Fin _, PosInf => true
  | _, _ => false
  end.

Definition xle (a b : xnum) : Prop := a = b ∨ xltb a b = true.

(** Modelled from the spec: a dataset either exposes separable input
    and target views or does not. *)
Inductive Dataset : Type :=
| DatasetXy (X y : pyval)
| DatasetCustom.

(** Modelled from the spec: [data_from_dataset], imported from
    [skorch.utils] but not among the sources, extracts the flat
    (inputs, targets) pair and fails on a dataset without those views. *)
Definition data_from_dataset (dataset : Dataset) : result (pyval * pyval) :=
  match dataset with
  | DatasetXy X y => Ok (X, y)
  | DatasetCustom => Raise AttributeError
  end.

Definition is_None (v : pyval) : bool :=
  match v with
  | PNone => true
  | _ => false
  end.

(** [zip] applied to the rows, unpacked into exactly two tuples. *)
Definition unzip2 (rows : list (list hval))
  : result (list hval * list hval) :=
  match zip_star rows with
  | [a; b] => Ok (a, b)
  | _ => Raise ValueError
  end.

(** [np.average(a, weights=w)] on one axis, in exact arithmetic. *)
Definition np_average (a w : list Qc) : result Qc :=
  if negb (length a =? length w)%nat then Raise TypeError
  else
    let scl := foldr Qcplus 0%Qc w in
    if bool_decide (scl = 0%Qc) then Raise ZeroDivisionError
    else Ok (foldr Qcplus 0%Qc (zip_with Qcmult a w) / scl)%Qc.

(** The field [k] of the last epoch record, if recorded. *)
Definition last_field (h : History.history) (k : string) : option hval :=
  e ← last h; fields e !! k.

(** The weighted average of [(score, weight)] pairs: the sum of the
    scores times their weights, over the sum of the weights. *)
Definition weighted_average (pairs : list (Qc * Qc)) : Qc :=
  (foldr Qcplus 0 ((λ p, p.1 * p.2) <$> pairs)
   / foldr Qcplus 0 (pairs.*2))%Qc.

(** The batch records that hold both keys, as pairs of the recorded
    values. *)
Definition batch_pairs (k1 k2 : string) (bs : list (gmap string hval))
  : list (hval * hval) :=
  omap (λ b, w ← b !! k1; s ← b !! k2; Some (w, s)) bs.

(** The [(score, batch size)] pairs of the batch records of an epoch
    that hold both the score [score_key] and the batch size [bs_key]. *)
Definition batch_scores (bs_key score_key : string) (e : epoch)
  : list (Qc * Qc) :=
  omap (λ b, w ← b !! bs_key; s ← b !! score_key; Some (hnum s, hnum w))
       (batches e).

Definition epoch_warning : string :=
  "EpochScoring cannot access X and y from the dataset. This typically happens when you fit the net with your own dataset. In that case, EpochScoring does not work.".

Section callbacks.
(** The wrapped module with its parameters, opaque here. *)
Context {Model : Type}.

Record Net : Type := {
  module_ : Model;
  history : History.history;
}.

Definition scorer : Type := Net → pyval → pyval → result Qc.

(** The [scoring] argument: None, a metric name, a [partial] or
    another callable (with its [__name__]). *)
Inductive scoring_arg : Type :=
| ScoringNone
| ScoringStr (s : string)
| ScoringPartial (func_name : string) (f : scorer)
| ScoringCallable (name : string) (f : scorer).

(** The constructor arguments of [ScoringBase]. *)
Record ScoringBase : Type := {
  scoring : scoring_arg;
  lower_is_better : option bool;
  on_train : bool;
  name : option string;
  target_extractor : pyval → result pyval;
}.

(** The attributes [initialize] sets. *)
Record Fitted : Type := {
  best_score_ : xnum;
  name_ : string;
}.

(** sklearn's side of [check_scoring]: the net's own [score] method
    and the table of named scorers. *)
Variable net_score : scorer.
Variable named_scorer : string → option scorer.

Definition _get_name (self : ScoringBase) : string :=
  match name self with
  | Some n => n
  | None =>
      match scoring self with
      | ScoringNone => "score"
      | ScoringStr s => s
      | ScoringPartial func_name _ => func_name
      | ScoringCallable n _ => n
      end
  end.

Definition initialize (self : ScoringBase) : Fitted :=
  {| best_score_ :=
       match lower_is_better self with
       | Some true => PosInf
       | Some false | None => NegInf
       end;
     name_ := _get_name self |}.

(** Resolve scoring and apply it to data.  sklearn's [_score] calls the
    scorer without targets when [y_test] is [None]; the scorer then sees
    [None] in their place. *)
Definition _scoring (self : ScoringBase) (net : Net) (X_test y_test : pyval)
  : result Qc :=
  match scoring self with
  | ScoringNone => net_score net X_test y_test
  | ScoringStr s =>
      match named_scorer s with
      | Some f => f net X_test y_test
      | None => Raise ValueError
      end
  | ScoringPartial _ f | ScoringCallable _ f => f net X_test y_test
  end.

Definition _is_best_score (self : ScoringBase) (fitted : Fitted)
    (current_score : Qc) : option bool :=
  match lower_is_better self with
  | None => None
  | Some true => Some (xltb (Fin current_score) (best_score_ fitted))
  | Some false => Some (xltb (best_score_ fitted) (Fin current_score))
  end.

(** *** State: the net, the callback's fitted attributes, warnings *)

Record World : Type := {
  net : Net;
  fitted : Fitted;
  warnings : list string;
}.

(** Effects that were done before an exception stay done. *)
Definition M (A : Type) : Type := World → result A * World.

#[local] Instance M_ret : MRet M := λ A a w, (Ok a, w).
#[local] Instance M_bind : MBind M := λ A B f m w,
  match m w with
  | (Ok a, w') => f a w'
  | (Raise e, w') => (Raise e, w')
  end.

Definition lift {A} (r : result A) : M A := λ w, (r, w).
Definition get_net : M Net := λ w, (Ok (net w), w).
Definition get_fitted : M Fitted := λ w, (Ok (fitted w), w).

Definition set_history (h : History.history) : M unit := λ w,
  (Ok tt,
   {| net := {| module_ := module_ (net w); history := h |};
      fitted := fitted w;
      warnings := warnings w |}).

Definition set_best_score_ (s : xnum) : M unit := λ w,
  (Ok tt,
   {| net := net w;
      fitted := {| best_score_ := s; name_ := name_ (fitted w) |};
      warnings := warnings w |}).

Definition warn (msg : string) : M unit := λ w,
  (Ok tt,
   {| net := net w; fitted := fitted w; warnings := warnings w ++ [msg] |}).

(** [try: body except exc: handler] *)
Definition try_catch {A} (body : M A) (exc : exn) (handler : M A) : M A :=
  λ w,
    match body w with
    | (Raise e, w') => if decide (e = exc) then handler w' else (Raise e, w')
    | r => r
    end.

Definition history_record (attr : string) (value : hval) : M unit :=
  n ← get_net;
  h ← lift (History.record attr value (history n));
  set_history h.

Definition history_record_batch (attr : string) (value : hval) : M unit :=
  n ← get_net;
  h ← lift (History.record_batch attr value (history n));
  set_history h.

(** *** BatchScoring *)

Definition BatchScoring_on_batch_end (self : ScoringBase)
    (X y : pyval) (training : bool) : M unit :=
  if negb (eqb training (on_train self)) then mret tt
  else
    y ← lift (target_extractor self y);
    try_catch
      (n ← get_net;
       score ← lift (_scoring self n X y);
       f ← get_fitted;
       history_record_batch (name_ f) (HNum score))
      KeyError
      (mret tt).

Definition get_avg_score (self : ScoringBase) (f : Fitted)
    (h : History.history) : result Qc :=
  let bs_key :=
    if on_train self then "train_batch_size" else "valid_batch_size" in
  rows ← last_batches h [bs_key; name_ f];
  '(weights, scores) ← unzip2 rows;
  np_average (hnum <$> scores) (hnum <$> weights).

Definition BatchScoring_on_epoch_end (self : ScoringBase) : M unit :=
  n ← get_net;
  f ← get_fitted;
  found ← try_catch
            (_ ← lift (last_batches (history n) [name_ f]); mret true)
            KeyError
            (mret false);
  if negb found then mret tt
  else
    score_avg ← lift (get_avg_score self f (history n));
    let is_best := _is_best_score self f score_avg in
    _ ← (if bool_decide (is_best = Some true)
         then set_best_score_ (Fin score_avg) else mret tt);
    _ ← history_record (name_ f) (HNum score_avg);
    match is_best with
    | Some b => history_record (name_ f +:+ "_best") (HBool b)
    | None => mret tt
    end.

(** *** EpochScoring *)

Definition EpochScoring_on_epoch_end (self : ScoringBase)
    (dataset_train dataset_valid : Dataset) : M unit :=
  let dataset := if on_train self then dataset_train else dataset_valid in
  '(X_test, y_test) ←
    try_catch
      (lift (data_from_dataset dataset))
      AttributeError
      (_ ← warn epoch_warning; mret (PNone, PNone));
  if is_None X_test then mret tt
  else
    y_test ← (if negb (is_None y_test)
              then lift (target_extractor self y_test)
              else mret y_test);
    n ← get_net;
    current_score ← lift (_scoring self n X_test y_test);
    f ← get_fitted;
    _ ← history_record (name_ f) (HNum current_score);
    match _is_best_score self f current_score with
    | None => mret tt
    | Some is_best =>
        _ ← history_record (name_ f +:+ "_best") (HBool is_best);
        if is_best then set_best_score_ (Fin current_score) else mret tt
    end.

(** *** What an epoch-end event leaves behind *)

(** The fields of the epoch record once the score [s] and, when the
    comparison direction is set, its flag are recorded. *)
Definition fields_after (self : ScoringBase) (f : Fitted) (s : Qc)
    (m : gmap string hval) : gmap string hval :=
  let m := <[name_ f := HNum s]> m in
  match _is_best_score self f s with
  | Some b => <[name_ f +:+ "_best" := HBool b]> m
  | None => m
  end.

Definition fitted_after (self : ScoringBase) (f : Fitted) (s : Qc)
  : Fitted :=
  if bool_decide (_is_best_score self f s = Some true)
  then {| best_score_ := Fin s; name_ := name_ f |}
  else f.

(** Either the callback's work was skipped or cut short before it
    recorded anything, or the score [s] was recorded. *)
Inductive outcome (self : ScoringBase) (w w' : World) : Prop :=
| outcome_skipped :
    fitted w' = fitted w →
    history (net w') = history (net w) →
    outcome self w w'
| outcome_recorded (s : Qc) (h : History.history) (e : epoch) :
    history (net w) = h ++ [e] →
    history (net w')
    = h ++ [Epoch (fields_after self (fitted w) s (fields e)) (batches e)] →
    fitted w' = fitted_after self (fitted w) s →
    outcome self w w'.

(** *** Runs of the training loop, seen from one callback *)

Inductive callback : Type :=
| BatchScoring (self : ScoringBase)
| EpochScoring (self : ScoringBase).

Definition config (cb : callback) : ScoringBase :=
  match cb with
  | BatchScoring self | EpochScoring self => self
  end.

(** The callback handles an epoch-end event: [w] becomes [w']. *)
Definition epoch_end (cb : callback) (w w' : World) : Prop :=
  match cb with
  | BatchScoring self => (BatchScoring_on_epoch_end self w).2 = w'
  | EpochScoring self =>
      ∃ dataset_train dataset_valid,
        (EpochScoring_on_epoch_end self dataset_train dataset_valid w).2 = w'
  end.

(** Anything else that happens in between (the loop, other callbacks)
    leaves this callback's attributes alone. *)
Definition elsewhere (w w' : World) : Prop := fitted w' = fitted w.

Definition step (cb : callback) (w w' : World) : Prop :=
  epoch_end cb w w' ∨ elsewhere w w'.

(** A world in which the callback has just been initialised. *)
Definition initialized (cb : callback) (w : World) : Prop :=
  fitted w = initialize (config cb).

End callbacks.

Global Arguments Net : clear implicits.
Global Arguments World : clear implicits.
Global Arguments ScoringBase : clear implicits.
Global Arguments callback : clear implicits.
Global Arguments scorer : clear implicits.

End Scoring.

(** ** The callbacks of the language model example *)

Module Train.
Import History.

(** Whether a recorded value counts as true in a condition. *)
Definition htruthy (v : hval) : bool :=
  match v with
  | HBool b => b
  | HNum q => negb (bool_decide (q = 0%Qc))
  | HInt n => negb (n =? 0)
  end.

(** [history[-1][k]]: the field [k] of the last epoch record. *)
Definition last_epoch_field (h : History.history) (k : string) : result hval :=
  match last h with
  | None => Raise IndexError
  | Some e =>
      match fields e !! k with
      | Some v => Ok v
      | None => Raise KeyError
      end
  end.

Section learner.
(** The parameters of the wrapped module, opaque here. *)
Context {Params : Type}.

(** What the two callbacks read and write of the learner: its learning
    rate, its history, the module parameters, and the checkpoint that
    [save_params] writes at the path given on the command line. *)
Record Learner : Type := {
  lr : Qc;
  history : History.history;
  params : Params;
  checkpoint : option Params;
}.

Definition LRAnnealing_on_epoch_end (net : Learner) : result Learner :=
  best ← last_epoch_field (history net) "valid_loss_best";
  if negb (htruthy best)
  then Ok {| lr := (lr net / Q2Qc 4)%Qc;
             history := history net;
             params := params net;
             checkpoint := checkpoint net |}
  else Ok net.

Definition Checkpointing_on_epoch_end (net : Learner) : result Learner :=
  best ← last_epoch_field (history net) "valid_loss_best";
  if htruthy best
  then Ok {| lr := lr net;
             history := history net;
             params := params net;
             checkpoint := Some (params net) |}
  else Ok net.

(** The two callbacks in the order they are registered. *)
Definition on_epoch_end (net : Learner) : result Learner :=
  net ← LRAnnealing_on_epoch_end net;
  Checkpointing_on_epoch_end net.

(** Between epoch ends the training loop changes the history and the
    parameters, not the learning rate or the checkpoint. *)
Definition training (net net' : Learner) : Prop :=
  lr net' = lr net ∧ checkpoint net' = checkpoint net.

Definition step (net net' : Learner) : Prop :=
  on_epoch_end net = Ok net' ∨ training net net'.

End learner.

Global Arguments Learner : clear implicits.

End Train.

(** * Concrete inputs *)

Module Examples.
Import Utils History Scoring.

(** [{'a': [1, 2, 3], 'b': [4, 5, 6]}] *)
Definition letters : list (pyval * pyval) :=
  [(PStr "a", PList [PInt 1; PInt 2; PInt 3]);
   (PStr "b", PList [PInt 4; PInt 5; PInt 6])].

(** Scorers over a net whose module is not looked at. *)
Definition raising (e : exn) : scorer unit := λ _ _ _, Raise e.
Definition constant (s : Qc) : scorer unit := λ _ _ _, Ok s.

(** sklearn's side: a net without a [score] method, no named scorer. *)
Definition no_net_score : scorer unit := raising TypeError.
Definition no_named_scorer : string → option (scorer unit) := λ _, None.

(** A callback scoring [accuracy] on validation data. *)
Definition accuracy (f : scorer unit) (lower : option bool)
  : ScoringBase unit :=
  {| scoring := ScoringCallable "accuracy" f;
     lower_is_better := lower;
     on_train := false;
     name := None;
     target_extractor := to_numpy |}.

Definition world (h : History.history) (f : Fitted) : World unit :=
  {| net := {| module_ := tt; history := h |};
     fitted := f;
     warnings := [] |}.

(** An epoch with two validation batches: score 0.8 on 2 samples and
    score 0.6 on 1 sample. *)
Definition two_batches : History.history :=
  [Epoch ∅
     [ {[ "valid_batch_size" := HInt 2; "accuracy" := HNum (Q2Qc (8 # 10)) ]};
       {[ "valid_batch_size" := HInt 1; "accuracy" := HNum (Q2Qc (6 # 10)) ]} ]].

(** An epoch with one validation batch of the given score. *)
Definition one_batch (s : Qc) : History.history :=
  [Epoch ∅ [ {[ "valid_batch_size" := HInt 1; "accuracy" := HNum s ]} ]].

Definition labels : pyval := PNdarray dt_int [PInt 0; PInt 1].
Definition inputs : pyval := PNdarray dt_float [PFloat 0; PFloat 1].

(** [{'encoder__a': 3, 'encoder__b': 4, 'decoder__a': 5}] *)
Definition module_kwargs : list (string * Z) :=
  [("encoder__a", 3); ("encoder__b", 4); ("decoder__a", 5)].

(** An epoch whose only batch has no score yet. *)
Definition unscored_batch : History.history :=
  [Epoch ∅ [ {[ "valid_batch_size" := HInt 2 ]} ]].

(** A learner at the end of an epoch that was not the best. *)
Definition learner : Train.Learner unit :=
  {| Train.lr := Q2Qc 20;
     Train.history := [Epoch {[ "valid_loss_best" := HBool false ]} []];
     Train.params := tt;
     Train.checkpoint := None |}.

End Examples.

(** * Properties of the utilities *)

Section utils_facts.
Import Utils.

(** Whether the machine has a GPU. *)
Variable gpu : bool.

Lemma comprehension_ok_Forall2 {A B} (f : A → result B) l r :
  comprehension f l = Ok r ↔ Forall2 (λ x y, f x = Ok y) l r.
Proof.
  revert r. induction l as [|x l IH]; intros r; simpl.
  - split; [intros [= <-]; constructor | by inversion 1].
  - destruct (f x) as [y|e] eqn:Hx.
    + destruct (comprehension f l) as [ys|e] eqn:Hl.
      * split.
        -- intros [= <-]. constructor; [done | by apply IH].
        -- inversion 1 as [|? y' ? ys' Hy Hys]; subst.
           apply IH in Hys. congruence.
      * split; [done |].
        inversion 1 as [|? y' ? ys' Hy Hys]; subst.
        apply IH in Hys. congruence.
    + split; [done |].
      inversion 1 as [|? y' ? ys' Hy Hys]; subst. congruence.
Qed.

Lemma comprehension_total {A B} (f : A → result B) (g : A → B) l :
  Forall (λ x, f x = Ok (g x)) l → comprehension f l = Ok (g <$> l).
Proof.
  induction 1 as [|x l Hx _ IH]; simpl; [done |].
  by rewrite Hx, IH.
Qed.

Lemma py_slice_items {A} (l : list A) start stop step :
  step ≠ Some 0 → py_slice l start stop step = Ok (slice_items l start stop step).
Proof.
  intros Hstep. unfold py_slice, slice_indices, slice_items.
  destruct (default 1 step =? 0) eqn:Hz; [|done].
  apply Z.eqb_eq in Hz. destruct step as [z|]; simpl in *; [|lia].
  by subst.
Qed.

Lemma lookup_positions {A} (l : list A) (m a : nat) :
  (a + m ≤ length l)%nat →
  omap (λ p, l !! Z.to_nat p) (seqZ (Z.of_nat a) (Z.of_nat m))
  = take m (drop a l).
Proof.
  revert a. induction m as [|m IH]; intros a Hlen; [done |].
  rewrite seqZ_cons by lia.
  destruct (lookup_lt_is_Some_2 l a) as [x Hx]; [lia |].
  rewrite (drop_S _ _ _ Hx). cbn [omap list_omap take].
  rewrite Nat2Z.id, Hx.
  replace (Z.succ (Z.of_nat a)) with (Z.of_nat (S a)) by lia.
  replace (Z.pred (Z.of_nat (S m))) with (Z.of_nat m) by lia.
  rewrite IH by lia. done.
Qed.

(** A plain slice [l[a:b]] within bounds is the familiar sub-list. *)
Lemma slice_items_take_drop {A} (l : list A) (a b : nat) :
  (a ≤ b ≤ length l)%nat →
  slice_items l (Some (Z.of_nat a)) (Some (Z.of_nat b)) None
  = take (b - a) (drop a l).
Proof.
  intros [Hab Hb]. unfold slice_items, slice_adjust, range_positions. simpl.
  set (n := Z.of_nat (length l)).
  assert ((if n <=? Z.of_nat a then n else Z.of_nat a) = Z.of_nat a) as ->
    by (destruct (Z.leb_spec n (Z.of_nat a)); lia).
  assert ((if n <=? Z.of_nat b then n else Z.of_nat b) = Z.of_nat b) as ->
    by (destruct (Z.leb_spec n (Z.of_nat b)); lia).
  rewrite !(proj2 (Z.ltb_ge _ 0)) by lia.
  rewrite (list_fmap_ext (λ k, Z.of_nat a + k * 1) (Z.add (Z.of_nat a)))
    by (intros; lia).
  rewrite fmap_add_seqZ, Z.add_0_r.
  destruct (Z.ltb_spec (Z.of_nat a) (Z.of_nat b)).
  - rewrite Z.div_1_r.
    replace (Z.of_nat b - Z.of_nat a - 1 + 1) with (Z.of_nat (b - a)) by lia.
    apply lookup_positions. lia.
  - replace (b - a)%nat with 0%nat by lia. done.
Qed.

Lemma getitem_slice v start stop step :
  sliceable start stop step v = true →
  getitem v (PSlice start stop step) = Ok (sliced start stop step v).
Proof.
  unfold sliceable. intros Hv.
  apply andb_prop in Hv as [Hv Htensor].
  apply andb_prop in Hv as [Hv Hstep].
  assert (step ≠ Some 0) as Hstep'.
  { intros ->. discriminate Hstep. }
  destruct v; try discriminate; simpl;
    unfold seq_getitem, tensor_getitem, array_getitem;
    try (by rewrite py_slice_items).
  destruct step as [z|]; [|by rewrite py_slice_items].
  apply andb_prop in Htensor as [Hpos _]. simpl in Hpos.
  destruct (z <? 0) eqn:Hneg; [lia |].
  by rewrite py_slice_items.
Qed.

Lemma multi_indexing_index_error data i e :
  index_of_array i = Raise e → multi_indexing data i = Raise e.
Proof. intros Hi. destruct data; simpl; by rewrite Hi. Qed.

(** C2 (as amended): an index array whose dtype is neither boolean nor
    the integer dtype makes [multi_indexing] raise [IndexError], for
    every [data]. *)
Theorem multi_indexing_bad_index_dtype data dt items :
  dt ≠ dt_bool → dt ≠ dt_int →
  multi_indexing data (PNdarray dt items) = Raise IndexError.
Proof.
  intros Hb Hi. apply multi_indexing_index_error. simpl.
  by rewrite !decide_False.
Qed.

(** C9: indexing a dict of sequences by a slice that each of them
    accepts gives the dict with the same keys, in the same order, whose
    values are the original values with that slice applied.  Lists,
    tuples, strings and arrays accept every slice of non-zero step; a
    tensor takes a positive step and a slice that selects something. *)
Theorem multi_indexing_dict_slice kvs start stop step :
  Forall (λ kv, sliceable start stop step kv.2 = true) kvs →
  multi_indexing (PDict kvs) (PSlice start stop step)
  = Ok (PDict ((λ kv, (kv.1, sliced start stop step kv.2)) <$> kvs)).
Proof.
  intros Hseq. simpl.
  rewrite (comprehension_total _
             (λ kv, (kv.1, sliced start stop step kv.2))); [done |].
  eapply Forall_impl; [exact Hseq |].
  intros [k v] Hv; simpl in *. by rewrite getitem_slice.
Qed.

(** [to_tensor] below the containers gives a torch value, on the
    device asked for when [use_cuda] is set. *)
Lemma to_tensor_leaf_torch X use_cuda T :
  to_tensor_leaf gpu X use_cuda = Ok T →
  is_torch_data_type T = true ∧ (use_cuda = true → cuda gpu T = Ok T).
Proof.
  unfold to_tensor_leaf. intros H.
  destruct X as [| | | | | | | | |dt0 l0| | | |]; simpl in H;
    repeat match type of H with
      | context [torch_supports ?d] =>
          destruct (torch_supports d); simpl in H
      | context [if ?b then _ else _] => destruct b eqn:?; simpl in H
      | context [match ?d with PNone => _ | _ => _ end] =>
          destruct d; simpl in H
      end;
    try discriminate; simplify_eq; by split.
Qed.

Lemma to_tensor_torch T use_cuda :
  is_torch_data_type T = true → (use_cuda = true → cuda gpu T = Ok T) →
  to_tensor gpu T use_cuda = Ok T.
Proof.
  intros HT Hc. destruct T; try discriminate; simpl; [|done].
  unfold to_tensor_leaf; simpl. destruct use_cuda; [by apply Hc | done].
Qed.

(** C8: converting an already converted value returns it unchanged:
    whenever [to_tensor X use_cuda] succeeds with [T], so does
    [to_tensor T use_cuda], with [T] again. *)
Theorem to_tensor_idempotent X use_cuda T :
  to_tensor gpu X use_cuda = Ok T → to_tensor gpu T use_cuda = Ok T.
Proof.
  revert T.
  induction X as
    [| | | | | |l IH|l IH|kvs IH|dt l _|c dt l _|d _|d b _ _|l _]
    using pyval_nested_ind;
    intros T H;
    try (cbn in H; discriminate);
    try (match type of H with
         | to_tensor gpu ?x _ = _ => apply (to_tensor_leaf_torch x) in H as [??]
         end; by apply to_tensor_torch).
  - (* list *)
    simpl in H.
    destruct (comprehension _ l) as [r|] eqn:Hr; [|done].
    injection H as <-. simpl.
    apply comprehension_ok_Forall2 in Hr.
    rewrite (comprehension_total _ id), list_fmap_id; [done |].
    clear -IH Hr. induction Hr as [|x y l r Hxy _ IHr]; [done |].
    apply Forall_cons in IH as [Hx IH]. constructor; auto.
  - (* tuple *)
    simpl in H.
    destruct (comprehension _ l) as [r|] eqn:Hr; [|done].
    injection H as <-. simpl.
    apply comprehension_ok_Forall2 in Hr.
    rewrite (comprehension_total _ id), list_fmap_id; [done |].
    clear -IH Hr. induction Hr as [|x y l r Hxy _ IHr]; [done |].
    apply Forall_cons in IH as [Hx IH]. constructor; auto.
  - (* dict *)
    simpl in H.
    destruct (comprehension _ kvs) as [r|] eqn:Hr; [|done].
    injection H as <-. simpl.
    apply comprehension_ok_Forall2 in Hr.
    rewrite (comprehension_total _ id), list_fmap_id; [done |].
    clear -IH Hr. induction Hr as [|[k v] [k' v'] l r Hxy _ IHr]; [done |].
    apply Forall_cons in IH as [[_ Hv] IH]. constructor; [|auto].
    simpl in *. destruct (to_tensor gpu v use_cuda) as [val|] eqn:Hval; [|done].
    injection Hxy as <- <-. simpl. by rewrite (Hv _ eq_refl).
  - (* Variable *) simpl in H. by injection H as <-.
  - (* PackedSequence *) simpl in H. by injection H as <-.
Qed.

(** *** [duplicate_items] *)

Lemma flatten_item_dict kvs :
  flatten_item (PDict kvs) = flatten_item (PTuple (kvs.*1)).
Proof.
  simpl. induction kvs as [|[k v] kvs IH]; simpl; [done |].
  by rewrite IH.
Qed.

Lemma flatten_app l1 l2 : flatten (l1 ++ l2) = flatten l1 ++ flatten l2.
Proof. unfold flatten. apply flat_map_app. Qed.

Lemma flatten_dict before kvs after :
  flatten (before ++ PDict kvs :: after)
  = flatten (before ++ PTuple (kvs.*1) :: after).
Proof.
  rewrite !flatten_app. unfold flatten at 2 4.
  cbn [flat_map]. by rewrite flatten_item_dict.
Qed.

Lemma flatten_item_hashable v k : hash_key v = Ok k → flatten_item v = [v].
Proof. by destruct v. Qed.

Lemma occurrences_app k l1 l2 :
  occurrences k (l1 ++ l2) = (occurrences k l1 + occurrences k l2)%nat.
Proof. induction l1 as [|v l1 IH]; simpl; [done |]. rewrite IH. lia. Qed.

Lemma occurrences_elem k v l :
  v ∈ l → hash_key v = Ok k → (1 ≤ occurrences k l)%nat.
Proof.
  intros Hin Hk. induction Hin as [v l|v w l _ IH]; simpl.
  - unfold same_key. rewrite Hk, bool_decide_eq_true_2 by done. lia.
  - specialize (IH Hk). lia.
Qed.

Lemma existsb_same_key k l :
  existsb (same_key k) l = (1 <=? occurrences k l)%nat.
Proof.
  induction l as [|v l IH]; simpl; [done |].
  rewrite IH. destruct (same_key k v); simpl; [done |].
  done.
Qed.

Lemma existsb_same_key_elem k l :
  existsb (same_key k) l = true → ∃ y, y ∈ l ∧ hash_key y = Ok k.
Proof.
  induction l as [|v l IH]; simpl; [done |].
  destruct (same_key k v) eqn:Hv; simpl.
  - intros _. exists v. split; [left |].
    unfold same_key in Hv. destruct (hash_key v) as [k'|]; [|done].
    by apply bool_decide_eq_true in Hv as ->.
  - intros (y & Hy & Hk)%IH. exists y. split; [by right | done].
Qed.

Lemma same_key_hash k v h :
  hash_key v = Ok k → same_key h v = bool_decide (k = h).
Proof. intros Hk. unfold same_key. by rewrite Hk. Qed.

Lemma existsb_snoc {A} (f : A → bool) l x :
  existsb f (l ++ [x]) = existsb f l || f x.
Proof. rewrite existsb_app. simpl. by rewrite orb_false_r. Qed.

Lemma duplicate_fold_raise items e :
  fold_left duplicate_step items (Raise e) = Raise e.
Proof. induction items as [|x items IH]; simpl; done. Qed.

(** The loop of [duplicate_items]: [seen] collects every key met,
    [duplicates] every key met again. *)
Lemma duplicate_fold_spec items duplicates seen d s h :
  fold_left duplicate_step items (Ok (duplicates, seen)) = Ok (d, s) →
  existsb (same_key h) s
  = existsb (same_key h) seen || existsb (same_key h) items
  ∧ existsb (same_key h) d
    = existsb (same_key h) duplicates
      || (existsb (same_key h) seen && existsb (same_key h) items)
      || (2 <=? occurrences h items)%nat.
Proof.
  revert duplicates seen.
  induction items as [|x items IH]; intros duplicates seen; simpl.
  - intros [= <- <-]. by rewrite !andb_false_r, !orb_false_r.
  - unfold set_contains, set_add, set_contains.
    destruct (hash_key x) as [k|e] eqn:Hk; simpl;
      [|by rewrite duplicate_fold_raise].
    rewrite (same_key_hash _ _ h Hk).
    destruct (existsb (same_key k) seen) eqn:Hseen; simpl.
    + (* met before: it goes to [duplicates] *)
      intros Hfold.
      assert (existsb (same_key h)
                (if existsb (same_key k) duplicates
                 then duplicates else duplicates ++ [x])
              = existsb (same_key h) duplicates || bool_decide (k = h))
        as Hadd.
      { destruct (existsb (same_key k) duplicates) eqn:Hd.
        - case_bool_decide as Hkh; [|by rewrite orb_false_r].
          subst h. by rewrite Hd.
        - by rewrite existsb_snoc, (same_key_hash _ _ h Hk). }
      apply IH in Hfold as [-> ->]. rewrite Hadd.
      rewrite (existsb_same_key h items).
      case_bool_decide as Hkh; simpl; [subst h; rewrite Hseen |];
        repeat match goal with
          | |- context [existsb ?f ?l] => destruct (existsb f l)
          end;
        destruct (occurrences _ items) as [|[|n]]; by simpl.
    + (* first time: it goes to [seen] *)
      intros Hfold. apply IH in Hfold as [-> ->].
      rewrite existsb_snoc, (same_key_hash _ _ h Hk).
      rewrite (existsb_same_key h items).
      case_bool_decide as Hkh; simpl; [subst h; rewrite Hseen |];
        repeat match goal with
          | |- context [existsb ?f ?l] => destruct (existsb f l)
          end;
        destruct (occurrences _ items) as [|[|n]]; by simpl.
Qed.

(** A key is reported exactly when it occurs at least twice among the
    flattened items. *)
Lemma duplicate_items_spec collections d h :
  duplicate_items collections = Ok d →
  existsb (same_key h) d = (2 <=? occurrences h (flatten collections))%nat.
Proof.
  unfold duplicate_items. intros H.
  destruct (fold_left _ _ _) as [[d' s]|] eqn:Hfold; [|done].
  injection H as <-.
  by apply (duplicate_fold_spec _ _ _ _ _ h) in Hfold as [_ ->].
Qed.

(** C10: a mapping takes part in duplicate detection through its keys
    only: it can be replaced by the tuple of its keys; the docstring's
    mapping with a repeated value has no duplicates; and a key that is
    also an item of a list or tuple, or a key of another mapping, among
    the other arguments is reported. *)
Theorem duplicate_items_mapping_keys before kvs after :
  duplicate_items (before ++ PDict kvs :: after)
  = duplicate_items (before ++ PTuple (kvs.*1) :: after)
  ∧ duplicate_items [PDict [(PInt 1, PStr "a"); (PInt 2, PStr "a")]] = Ok []
  ∧ ∀ key item items h d,
      key ∈ kvs.*1 → hash_key key = Ok h →
      PList items ∈ before ++ after ∨ PTuple items ∈ before ++ after
      ∨ (∃ kvs', PDict kvs' ∈ before ++ after ∧ items = kvs'.*1) →
      item ∈ items → hash_key item = Ok h →
      duplicate_items (before ++ PDict kvs :: after) = Ok d →
      ∃ y, y ∈ d ∧ hash_key y = Ok h.
Proof.
  split; [|split].
  - unfold duplicate_items. by rewrite flatten_dict.
  - reflexivity.
  - intros key item items h d Hkey Hh Hitems Hitem Hh' Hd.
    assert (item ∈ flatten (before ++ after)) as Hflat.
    { apply list_elem_of_In, in_flat_map.
      assert (In item (flat_map flatten_item items)) as Hin.
      { apply in_flat_map. exists item.
        split; [by apply list_elem_of_In |].
        rewrite (flatten_item_hashable _ _ Hh'). by left. }
      destruct Hitems as [Hl|[Hl|(kvs' & Hl & ->)]];
        [exists (PList items) | exists (PTuple items) | exists (PDict kvs')];
        (split; [by apply list_elem_of_In |]);
        [exact Hin | exact Hin | by rewrite flatten_item_dict]. }
    apply existsb_same_key_elem.
    rewrite (duplicate_items_spec _ _ h Hd).
    apply Nat.leb_le.
    rewrite flatten_dict, flatten_app in *.
    rewrite occurrences_app.
    change (flatten (PTuple (kvs.*1) :: after))
      with (flat_map flatten_item (kvs.*1) ++ flatten after).
    rewrite occurrences_app.
    assert (1 ≤ occurrences h (flat_map flatten_item (kvs.*1)))%nat.
    { apply (occurrences_elem h key); [|done].
      apply list_elem_of_In, in_flat_map. exists key.
      split; [by apply list_elem_of_In |].
      rewrite (flatten_item_hashable _ _ Hh). by left. }
    assert (1 ≤ occurrences h (flatten before) + occurrences h (flatten after))%nat.
    { rewrite <-occurrences_app. by apply (occurrences_elem h item). }
    lia.
Qed.

End utils_facts.

(** * Properties of the history log *)

Section history_facts.
Import History Scoring.

Lemma on_last_snoc {A} (f : A → result A) l x :
  on_last f (l ++ [x]) = x' ← f x; Ok (l ++ [x']).
Proof.
  induction l as [|y l IH]; simpl; [done |].
  rewrite IH. destruct l; simpl; by destruct (f x).
Qed.

Lemma record_snoc attr value h e :
  record attr value (h ++ [e])
  = Ok (h ++ [Epoch (<[attr := value]> (fields e)) (batches e)]).
Proof. unfold record. by rewrite on_last_snoc. Qed.

Lemma last_field_snoc h e k : last_field (h ++ [e]) k = fields e !! k.
Proof. unfold last_field. by rewrite last_snoc. Qed.

Lemma field_at_snoc_ne attr value h e i k :
  k ≠ attr →
  field_at (h ++ [Epoch (<[attr := value]> (fields e)) (batches e)]) i k
  = field_at (h ++ [e]) i k.
Proof.
  intros Hk. unfold field_at.
  destruct (decide (i < length h)%nat) as [Hi|Hi].
  - by rewrite !lookup_app_l.
  - rewrite !lookup_app_r by lia.
    destruct (i - length h)%nat; simpl; [|done].
    by rewrite lookup_insert_ne.
Qed.

Lemma last_batches_snoc h e keys :
  last_batches (h ++ [e]) keys
  = match omap (batch_row keys) (batches e) with
    | [] => Raise KeyError
    | rows => Ok rows
    end.
Proof. unfold last_batches. by rewrite last_snoc. Qed.

Lemma last_batches_ok_inv h keys rows :
  last_batches h keys = Ok rows → ∃ h' e, h = h' ++ [e].
Proof.
  unfold last_batches. destruct (last h) as [e|] eqn:Hlast; [|done].
  intros _. apply last_Some in Hlast as [h' ->]. eauto.
Qed.

Lemma string_app_length s t :
  String.length (s +:+ t) = (String.length s + String.length t)%nat.
Proof. induction s as [|c s IH]; simpl; [done |]. by rewrite IH. Qed.

Lemma best_key_fresh s : s +:+ "_best" ≠ s.
Proof.
  intros H. apply (f_equal String.length) in H.
  rewrite string_app_length in H. simpl in H. lia.
Qed.

End history_facts.

(** * Properties of the scoring callbacks *)

Section scoring_facts.
Import Utils History Scoring.

Context {Model : Type}.
Variable net_score : scorer Model.
Variable named_scorer : string → option (scorer Model).

Local Abbreviation on_batch_end :=
  (BatchScoring_on_batch_end net_score named_scorer).
Local Abbreviation epoch_on_epoch_end :=
  (EpochScoring_on_epoch_end net_score named_scorer).
Local Abbreviation batch_on_epoch_end := (@BatchScoring_on_epoch_end Model).
Local Abbreviation best w := (best_score_ (fitted w)).

(** Unfold the monad of the callbacks. *)
Ltac run :=
  unfold history_record, history_record_batch, set_history,
    set_best_score_, warn, try_catch, get_net, get_fitted, lift,
    mbind, M_bind, mret, M_ret in *;
  simpl in *.

(** C1 (as amended): on a batch of the configured phase, a scorer
    call that fails with [KeyError] is ignored: nothing is recorded,
    nothing is raised.  A failure of any other kind propagates. *)
Theorem on_batch_end_scorer_failure self X y y' training w e :
  training = on_train self →
  target_extractor self y = Ok y' →
  _scoring net_score named_scorer self (net w) X y' = Raise e →
  on_batch_end self X y training w
  = (if decide (e = KeyError) then Ok tt else Raise e, w).
Proof.
  intros -> Hy He. unfold BatchScoring_on_batch_end.
  rewrite eqb_reflx. run. rewrite Hy. simpl. rewrite He.
  by destruct (decide (e = KeyError)).
Qed.

(** C7: when the flat (inputs, targets) pair cannot be extracted from
    the selected dataset, [EpochScoring.on_epoch_end] emits the warning
    and returns: the history and the best score are as before and
    nothing is raised. *)
Theorem EpochScoring_dataset_failure self dataset_train dataset_valid w e :
  data_from_dataset (if on_train self then dataset_train else dataset_valid)
  = Raise e →
  epoch_on_epoch_end self dataset_train dataset_valid w
  = (Ok tt,
     {| net := net w;
        fitted := fitted w;
        warnings := warnings w ++ [epoch_warning] |}).
Proof.
  intros He. unfold EpochScoring_on_epoch_end. run.
  destruct (if on_train self then dataset_train else dataset_valid);
    simpl in He; [done |].
  by injection He as <-.
Qed.

(** *** The two [on_epoch_end] handlers, case by case *)

Lemma batch_row_both_second k1 k2 b row :
  batch_row [k1; k2] b = Some row → is_Some (batch_row [k2] b).
Proof.
  unfold batch_row. simpl.
  destruct (b !! k1); simpl; [|done].
  destruct (b !! k2); simpl; [|done]. eauto.
Qed.

Lemma omap_nonempty_mono {A B C} (f : A → option B) (g : A → option C) l :
  (∀ x y, f x = Some y → is_Some (g x)) → omap f l ≠ [] → omap g l ≠ [].
Proof.
  intros Hfg. induction l as [|x l IH]; simpl; [done |].
  destruct (f x) as [y|] eqn:Hx.
  - destruct (Hfg _ _ Hx) as [z ->]. done.
  - intros H. destruct (g x); [done | by apply IH].
Qed.

Lemma get_avg_score_found (self : ScoringBase Model) f h avg :
  get_avg_score self f h = Ok avg →
  ∃ h0 e rows, h = h0 ++ [e] ∧ last_batches h [name_ f] = Ok rows.
Proof.
  unfold get_avg_score. intros H.
  destruct (last_batches h [_; _]) as [rows|] eqn:Hrows; [|done].
  destruct (last_batches_ok_inv _ _ _ Hrows) as (h0 & e & ->).
  exists h0, e. rewrite last_batches_snoc in Hrows |- *.
  assert (omap (batch_row [name_ f]) (batches e) ≠ []) as Hne.
  { eapply omap_nonempty_mono; [apply batch_row_both_second |].
    intros Hnil. by rewrite Hnil in Hrows. }
  destruct (omap (batch_row [name_ f]) (batches e)); [done | eauto].
Qed.

Lemma batch_on_epoch_end_scored self w h e avg :
  history (net w) = h ++ [e] →
  get_avg_score self (fitted w) (history (net w)) = Ok avg →
  batch_on_epoch_end self w
  = (Ok tt,
     {| net :=
          {| module_ := module_ (net w);
             history :=
               h ++ [Epoch (fields_after self (fitted w) avg (fields e))
                       (batches e)] |};
        fitted := fitted_after self (fitted w) avg;
        warnings := warnings w |}).
Proof.
  intros Hh Havg.
  destruct (get_avg_score_found _ _ _ _ Havg) as (h0 & e0 & rows & _ & Hrows).
  unfold BatchScoring_on_epoch_end, fields_after, fitted_after. run.
  rewrite Hrows. simpl. rewrite Havg. simpl.
  destruct (_is_best_score self (fitted w) avg) as [[|]|]; simpl;
    rewrite Hh, record_snoc; simpl; rewrite ?record_snoc; done.
Qed.

Lemma batch_on_epoch_end_unscored self w :
  (∀ avg, get_avg_score self (fitted w) (history (net w)) ≠ Ok avg) →
  (batch_on_epoch_end self w).2 = w.
Proof.
  intros Hno. unfold BatchScoring_on_epoch_end. run.
  destruct (last_batches (history (net w)) [name_ (fitted w)])
    as [rows|err]; simpl.
  - destruct (get_avg_score self (fitted w) (history (net w))) as [avg|];
      simpl; [by destruct (Hno avg) | done].
  - by destruct (decide (err = KeyError)).
Qed.

Lemma batch_on_epoch_end_outcome self w :
  outcome self w (batch_on_epoch_end self w).2.
Proof.
  destruct (get_avg_score self (fitted w) (history (net w))) as [avg|err]
    eqn:Havg.
  - destruct (get_avg_score_found _ _ _ _ Havg) as (h & e & _ & Hh & _).
    rewrite (batch_on_epoch_end_scored _ _ _ _ _ Hh Havg).
    by eapply outcome_recorded.
  - rewrite batch_on_epoch_end_unscored; [by left |].
    intros avg. by rewrite Havg.
Qed.

Lemma epoch_on_epoch_end_outcome self dataset_train dataset_valid w :
  outcome self w (epoch_on_epoch_end self dataset_train dataset_valid w).2.
Proof.
  unfold EpochScoring_on_epoch_end. run.
  destruct (data_from_dataset _) as [[X y]|err]; simpl;
    [|destruct (decide (err = AttributeError)); by left].
  destruct (is_None X); simpl; [by left |].
  destruct (negb (is_None y)); simpl;
    [destruct (target_extractor self y) as [y'|]; simpl; [|by left] |];
    (destruct (_scoring _ _ _ _ _ _) as [s|]; simpl; [|by left];
     destruct (history (net w)) as [|e0 h0 _] eqn:Hh using rev_ind;
       [by left |];
     rewrite record_snoc;
     apply (outcome_recorded self w _ s h0 e0 Hh);
      unfold fields_after, fitted_after;
      destruct (_is_best_score self (fitted w) s) as [[|]|];
      simpl; rewrite ?record_snoc; done).
Qed.

Lemma epoch_end_outcome cb w w' :
  epoch_end net_score named_scorer cb w w' → outcome (config cb) w w'.
Proof.
  destruct cb as [self|self]; simpl.
  - intros <-. apply batch_on_epoch_end_outcome.
  - intros (dataset_train & dataset_valid & <-).
    apply epoch_on_epoch_end_outcome.
Qed.

(** *** The "is best" flag and the best score *)

Local Abbreviation epoch_end_of := (epoch_end net_score named_scorer).
Local Abbreviation step_of := (step net_score named_scorer).

Lemma is_best_disabled (self : ScoringBase Model) f s :
  lower_is_better self = None → _is_best_score self f s = None.
Proof. unfold _is_best_score. by intros ->. Qed.

Lemma run_fitted cb (P : Fitted → Fitted → Prop) :
  (∀ f, P f f) →
  (∀ f1 f2 f3, P f1 f2 → P f2 f3 → P f1 f3) →
  (∀ w w', epoch_end_of cb w w' → P (fitted w) (fitted w')) →
  ∀ w w', rtc (step_of cb) w w' → P (fitted w) (fitted w').
Proof.
  intros Hrefl Htrans Hstep w w' Hrun.
  induction Hrun as [w|w w1 w2 [Hev|Hel] _ IH]; [done | |].
  - eapply Htrans; [by apply Hstep | done].
  - unfold elsewhere in Hel. by rewrite <-Hel.
Qed.

(** C3: with [lower_is_better=None], an epoch-end event leaves the
    field [name_ + "_best"] of every epoch record as it was (so it is
    never written, not even as [False]), and [best_score_] is the same
    after any run of the training loop. *)
Theorem best_flag_omitted_when_disabled cb :
  lower_is_better (config cb) = None →
  (∀ w w', epoch_end_of cb w w' →
     fitted w' = fitted w
     ∧ ∀ i, field_at (history (net w')) i (name_ (fitted w) +:+ "_best")
            = field_at (history (net w)) i (name_ (fitted w) +:+ "_best"))
  ∧ (∀ w w', rtc (step_of cb) w w' → best w' = best w).
Proof.
  intros Hnone.
  assert (∀ w w', epoch_end_of cb w w' →
     fitted w' = fitted w
     ∧ ∀ i, field_at (history (net w')) i (name_ (fitted w) +:+ "_best")
            = field_at (history (net w)) i (name_ (fitted w) +:+ "_best"))
    as Hevent.
  { intros w w' [Hf Hh|s h e Hh Hh' Hf]%epoch_end_outcome.
    - by rewrite Hf, Hh.
    - unfold fitted_after, fields_after in *.
      rewrite (is_best_disabled _ _ _ Hnone) in Hf, Hh'. simpl in Hf.
      split; [done |]. intros i. rewrite Hh, Hh'.
      apply field_at_snoc_ne, best_key_fresh. }
  split; [done |].
  intros w w' Hrun. symmetry.
  apply (run_fitted cb (λ f f', best_score_ f = best_score_ f'));
    [done | congruence | | done].
  intros w1 w2 [-> _]%Hevent. done.
Qed.

Lemma xltb_trans a b c : xltb a b = true → xltb b c = true → xltb a c = true.
Proof.
  destruct a as [|x|], b as [|y|], c as [|z|]; simpl; try done.
  rewrite !bool_decide_eq_true. apply Qclt_trans.
Qed.

Lemma xle_refl a : xle a a.
Proof. by left. Qed.

Lemma xle_trans a b c : xle a b → xle b c → xle a c.
Proof.
  intros [->|Hab] [->|Hbc]; [by left | by right | by right |].
  right. by eapply xltb_trans.
Qed.

(** What an epoch-end event does to the best score when a comparison
    direction is set: it stays, or it becomes the score just recorded
    under [name_], which is strictly better. *)
Lemma outcome_best (self : ScoringBase Model) w w' lower :
  lower_is_better self = Some lower →
  outcome self w w' →
  best w' = best w
  ∨ ∃ s, best w' = Fin s
         ∧ last_field (history (net w')) (name_ (fitted w)) = Some (HNum s)
         ∧ (if lower then xltb (Fin s) (best w) else xltb (best w) (Fin s))
           = true.
Proof.
  intros Hdir [Hf Hh|s h e Hh Hh' Hf]; [left; by rewrite Hf |].
  unfold fitted_after, fields_after, _is_best_score in *.
  rewrite Hdir in Hf, Hh'.
  assert (last_field (history (net w')) (name_ (fitted w)) = Some (HNum s))
    as Hrec.
  { rewrite Hh', last_field_snoc. simpl.
    destruct lower;
      by rewrite lookup_insert_ne, lookup_insert_eq
        by apply best_key_fresh. }
  destruct lower; case_bool_decide as Hbest; simplify_eq;
    rewrite Hf; simpl; eauto.
Qed.

(** C4: from [initialize] on, over any run of the training loop, the
    best score starts at plus (minus) infinity when lower (higher) is
    better, never increases (decreases), and an epoch-end event changes
    it only to the score it records, which is then strictly smaller
    (larger) than the best so far. *)
Theorem best_score_monotone cb w0 w1 w2 :
  initialized cb w0 →
  rtc (step_of cb) w0 w1 →
  rtc (step_of cb) w1 w2 →
  (lower_is_better (config cb) = Some true →
     best w0 = PosInf
     ∧ xle (best w2) (best w1)
     ∧ ∀ w3, epoch_end_of cb w2 w3 →
         best w3 = best w2
         ∨ ∃ s, best w3 = Fin s
                ∧ last_field (history (net w3)) (name_ (fitted w2))
                  = Some (HNum s)
                ∧ xltb (Fin s) (best w2) = true)
  ∧ (lower_is_better (config cb) = Some false →
     best w0 = NegInf
     ∧ xle (best w1) (best w2)
     ∧ ∀ w3, epoch_end_of cb w2 w3 →
         best w3 = best w2
         ∨ ∃ s, best w3 = Fin s
                ∧ last_field (history (net w3)) (name_ (fitted w2))
                  = Some (HNum s)
                ∧ xltb (best w2) (Fin s) = true).
Proof.
  intros Hinit _ Hrun. unfold initialized in Hinit.
  split; intros Hdir; (split; [|split]).
  - rewrite Hinit. unfold initialize. by rewrite Hdir.
  - apply (run_fitted cb (λ f f', xle (best_score_ f') (best_score_ f)));
      [intros ?; apply xle_refl
      | intros ???; by eauto using xle_trans | | done].
    intros w w' Hev%epoch_end_outcome.
    destruct (outcome_best _ _ _ _ Hdir Hev) as [->|(s & -> & _ & Hlt)];
      [by left | by right].
  - intros w3 Hev%epoch_end_outcome.
    apply (outcome_best _ _ _ _ Hdir Hev).
  - rewrite Hinit. unfold initialize. by rewrite Hdir.
  - apply (run_fitted cb (λ f f', xle (best_score_ f) (best_score_ f')));
      [intros ?; apply xle_refl
      | intros ???; by eauto using xle_trans | | done].
    intros w w' Hev%epoch_end_outcome.
    destruct (outcome_best _ _ _ _ Hdir Hev) as [->|(s & -> & _ & Hlt)];
      [by left | by right].
  - intros w3 Hev%epoch_end_outcome.
    apply (outcome_best _ _ _ _ Hdir Hev).
Qed.

(** *** The epoch average of [BatchScoring] *)

Lemma batch_rows_raw k1 k2 bs :
  omap (batch_row [k1; k2]) bs
  = (λ p, [p.1; p.2]) <$> batch_pairs k1 k2 bs.
Proof.
  unfold batch_pairs.
  induction bs as [|b bs IH]; [done |].
  cbn [omap list_omap fmap list_fmap]. rewrite IH.
  unfold batch_row. simpl.
  destruct (b !! k1); simpl; [|done].
  by destruct (b !! k2).
Qed.

Lemma batch_scores_raw k1 k2 e :
  batch_scores k1 k2 e
  = (λ p, (hnum p.2, hnum p.1)) <$> batch_pairs k1 k2 (batches e).
Proof.
  unfold batch_scores, batch_pairs.
  induction (batches e) as [|b bs IH]; [done |].
  cbn [omap list_omap fmap list_fmap]. rewrite IH.
  destruct (b !! k1); simpl; [|done].
  by destruct (b !! k2).
Qed.

Lemma zip_star_pairs {A} (l : list (A * A)) :
  l ≠ [] → zip_star ((λ p, [p.1; p.2]) <$> l) = [l.*1; l.*2].
Proof.
  induction l as [|[a b] l IH]; [done |]. intros _.
  destruct l as [|p l]; [done |].
  change (zip_star ((λ p, [p.1; p.2]) <$> (a, b) :: p :: l))
    with (zip_with cons [a; b] (zip_star ((λ p, [p.1; p.2]) <$> p :: l))).
  by rewrite IH.
Qed.

Lemma np_average_pairs (l : list (hval * hval)) :
  let pairs := (λ p, (hnum p.2, hnum p.1)) <$> l in
  foldr Qcplus 0%Qc (pairs.*2) ≠ 0%Qc →
  np_average (hnum <$> l.*2) (hnum <$> l.*1) = Ok (weighted_average pairs).
Proof.
  intros pairs Hscl. unfold np_average, weighted_average.
  rewrite !length_fmap, Nat.eqb_refl. simpl.
  assert (pairs.*2 = hnum <$> l.*1) as Hw.
  { unfold pairs. rewrite <-!list_fmap_compose. done. }
  assert ((λ p, (p.1 * p.2)%Qc) <$> pairs
          = zip_with Qcmult (hnum <$> l.*2) (hnum <$> l.*1)) as Hn.
  { unfold pairs. clear. induction l as [|[a b] l IH]; [done |].
    cbn. f_equal. exact IH. }
  rewrite <-Hn, <-Hw. by rewrite bool_decide_eq_false_2.
Qed.

(** C5: when some batch record of the epoch holds a score under the
    callback's name together with its batch size, and the batch sizes
    do not sum to zero, [get_avg_score] is the average of those scores
    weighted by the batch sizes, and [BatchScoring.on_epoch_end]
    records it under the callback's name. *)
Theorem get_avg_score_weighted_average (self : ScoringBase Model) w h e :
  history (net w) = h ++ [e] →
  let bs_key :=
    if on_train self then "train_batch_size" else "valid_batch_size" in
  let pairs := batch_scores bs_key (name_ (fitted w)) e in
  pairs ≠ [] →
  foldr Qcplus 0%Qc (pairs.*2) ≠ 0%Qc →
  get_avg_score self (fitted w) (history (net w))
  = Ok (weighted_average pairs)
  ∧ last_field (history (net (batch_on_epoch_end self w).2))
      (name_ (fitted w))
    = Some (HNum (weighted_average pairs)).
Proof.
  intros Hh bs_key pairs Hne Hscl.
  assert (get_avg_score self (fitted w) (history (net w))
          = Ok (weighted_average pairs)) as Havg.
  { unfold get_avg_score. fold bs_key.
    rewrite Hh, last_batches_snoc, batch_rows_raw.
    unfold pairs in *. rewrite batch_scores_raw in *.
    set (raw := batch_pairs bs_key (name_ (fitted w)) (batches e)) in *.
    assert (raw ≠ []) as Hraw by (intros Hnil; by rewrite Hnil in Hne).
    destruct ((λ p, [p.1; p.2]) <$> raw) as [|r rs] eqn:Hrows;
      [by destruct raw |].
    rewrite <-Hrows. simpl. unfold unzip2.
    rewrite zip_star_pairs by done. simpl.
    by apply np_average_pairs. }
  split; [done |].
  rewrite (batch_on_epoch_end_scored _ _ _ _ _ Hh Havg). simpl.
  rewrite last_field_snoc. unfold fields_after. simpl.
  destruct (_is_best_score _ _ _);
    by rewrite ?lookup_insert_ne, lookup_insert_eq by apply best_key_fresh.
Qed.

(** C6: with lower-is-better and a best score of 1.0, an epoch average
    of 0.9 is recorded as the best ([name_ + "_best"] is [True]) and
    becomes the best score; an epoch average of 1.1 is recorded as not
    the best and the best score stays 1.0. *)
Theorem BatchScoring_best_flag (self : ScoringBase Model) w avg :
  lower_is_better self = Some true →
  best w = Fin 1 →
  get_avg_score self (fitted w) (history (net w)) = Ok avg →
  let w' := (batch_on_epoch_end self w).2 in
  (avg = Q2Qc (9 # 10) →
     last_field (history (net w')) (name_ (fitted w) +:+ "_best")
     = Some (HBool true)
     ∧ best w' = Fin (Q2Qc (9 # 10)))
  ∧ (avg = Q2Qc (11 # 10) →
     last_field (history (net w')) (name_ (fitted w) +:+ "_best")
     = Some (HBool false)
     ∧ best w' = Fin 1).
Proof.
  intros Hdir Hbest Havg w'.
  destruct (get_avg_score_found _ _ _ _ Havg) as (h & e & _ & Hh & _).
  unfold w'. rewrite (batch_on_epoch_end_scored _ _ _ _ _ Hh Havg). simpl.
  rewrite last_field_snoc. unfold fields_after, fitted_after, _is_best_score.
  rewrite Hdir, Hbest. simpl.
  rewrite lookup_insert_eq.
  split; intros ->.
  - assert (bool_decide (Q2Qc (9 # 10) < 1)%Qc = true) as ->
      by (by apply bool_decide_eq_true_2).
    by rewrite bool_decide_eq_true_2.
  - assert (bool_decide (Q2Qc (11 # 10) < 1)%Qc = false) as ->
      by (by apply bool_decide_eq_false_2).
    by rewrite bool_decide_eq_false_2, Hbest.
Qed.

(** *** The same flag in [EpochScoring] *)

Lemma epoch_on_epoch_end_scored self dataset_train dataset_valid w
    X y y' s h e :
  data_from_dataset (if on_train self then dataset_train else dataset_valid)
  = Ok (X, y) →
  is_None X = false →
  (if negb (is_None y) then target_extractor self y else Ok y) = Ok y' →
  _scoring net_score named_scorer self (net w) X y' = Ok s →
  history (net w) = h ++ [e] →
  epoch_on_epoch_end self dataset_train dataset_valid w
  = (Ok tt,
     {| net :=
          {| module_ := module_ (net w);
             history :=
               h ++ [Epoch (fields_after self (fitted w) s (fields e))
                       (batches e)] |};
        fitted := fitted_after self (fitted w) s;
        warnings := warnings w |}).
Proof.
  intros Hdata HX Hy Hs Hh.
  unfold EpochScoring_on_epoch_end, fields_after, fitted_after. run.
  rewrite Hdata. simpl. rewrite HX. simpl.
  destruct (negb (is_None y)); simpl;
    [rewrite Hy | injection Hy as <-]; simpl; rewrite Hs; simpl;
    rewrite Hh, record_snoc; simpl;
    destruct (_is_best_score self (fitted w) s) as [[|]|]; simpl;
    rewrite ?record_snoc; done.
Qed.

(** With lower-is-better and a best score of 1.0, [EpochScoring] flags a
    score of 0.9 as the best and keeps it, and flags a score of 1.1 as
    not the best. *)
Lemma EpochScoring_best_flag self dataset_train dataset_valid w X y y' s h e :
  lower_is_better self = Some true →
  best w = Fin 1 →
  data_from_dataset (if on_train self then dataset_train else dataset_valid)
  = Ok (X, y) →
  is_None X = false →
  (if negb (is_None y) then target_extractor self y else Ok y) = Ok y' →
  _scoring net_score named_scorer self (net w) X y' = Ok s →
  history (net w) = h ++ [e] →
  let w' := (epoch_on_epoch_end self dataset_train dataset_valid w).2 in
  (s = Q2Qc (9 # 10) →
     last_field (history (net w')) (name_ (fitted w) +:+ "_best")
     = Some (HBool true)
     ∧ best w' = Fin (Q2Qc (9 # 10)))
  ∧ (s = Q2Qc (11 # 10) →
     last_field (history (net w')) (name_ (fitted w) +:+ "_best")
     = Some (HBool false)
     ∧ best w' = Fin 1).
Proof.
  intros Hdir Hbest Hdata HX Hy Hs Hh w'. unfold w'.
  rewrite (epoch_on_epoch_end_scored _ _ _ _ _ _ _ _ _ _ Hdata HX Hy Hs Hh).
  simpl. rewrite last_field_snoc.
  unfold fields_after, fitted_after, _is_best_score.
  rewrite Hdir, Hbest. simpl. rewrite lookup_insert_eq.
  split; intros ->.
  - assert (bool_decide (Q2Qc (9 # 10) < 1)%Qc = true) as ->
      by (by apply bool_decide_eq_true_2).
    by rewrite bool_decide_eq_true_2.
  - assert (bool_decide (Q2Qc (11 # 10) < 1)%Qc = false) as ->
      by (by apply bool_decide_eq_false_2).
    by rewrite bool_decide_eq_false_2, Hbest.
Qed.

End scoring_facts.

(** * The theorems at concrete inputs *)

Import Utils History Scoring Examples.

(** C2, claim as stated, at a float index array: the exception is not
    a [TypeError]. *)
Lemma multi_indexing_float_index_not_TypeError :
  multi_indexing (PNdarray dt_int [PInt 1; PInt 2; PInt 3])
    (PNdarray dt_float [PFloat 0; PFloat 1])
  ≠ Raise TypeError.
Proof. discriminate. Qed.

(** C2 (as amended) at a float index array into a dict. *)
Lemma multi_indexing_bad_index_dtype_float :
  dt_float ≠ dt_bool ∧ dt_float ≠ dt_int
  ∧ multi_indexing (PDict letters) (PNdarray dt_float [PFloat 0; PFloat 1])
    = Raise IndexError.
Proof.
  split; [discriminate |]. split; [discriminate |].
  apply (multi_indexing_bad_index_dtype (PDict letters) dt_float
           [PFloat 0; PFloat 1]); discriminate.
Defined.

(** C9 at the spec's example: [{'a': [1, 2, 3], 'b': [4, 5, 6]}]
    indexed by [1:3]. *)
Lemma multi_indexing_dict_slice_1_3 :
  multi_indexing (PDict letters) (PSlice (Some 1) (Some 3) None)
  = Ok (PDict [(PStr "a", PList [PInt 2; PInt 3]);
               (PStr "b", PList [PInt 5; PInt 6])]).
Proof.
  apply (multi_indexing_dict_slice letters (Some 1) (Some 3) None).
  repeat constructor.
Defined.

(** A tensor refuses the reversing slice that a list accepts. *)
Lemma multi_indexing_tensor_negative_step :
  multi_indexing
    (PDict [(PStr "a", PTensor false dt_int [PInt 1; PInt 2; PInt 3])])
    (PSlice None None (Some (-1)))
  = Raise ValueError
  ∧ multi_indexing
      (PDict [(PStr "a", PList [PInt 1; PInt 2; PInt 3])])
      (PSlice None None (Some (-1)))
    = Ok (PDict [(PStr "a", PList [PInt 3; PInt 2; PInt 1])]).
Proof. split; reflexivity. Qed.

(** C8 at a nested input: a dict of a list and a tuple. *)
Lemma to_tensor_idempotent_nested :
  let X :=
    PDict [(PStr "a", PList [PInt 1; PInt 2]);
           (PStr "b", PTuple [PNdarray dt_float [PFloat 0]; PInt 3])] in
  let T :=
    PDict [(PStr "a", PList [PTensor true dt_int [PInt 1];
                             PTensor true dt_int [PInt 2]]);
           (PStr "b", PList [PTensor true dt_float [PFloat 0];
                             PTensor true dt_int [PInt 3]])] in
  to_tensor true X true = Ok T ∧ to_tensor true T true = Ok T.
Proof.
  intros X T. split; [reflexivity |].
  apply (to_tensor_idempotent true X true T). reflexivity.
Defined.

(** C10 at the docstring's example: the keys 3 and 4 of the mapping
    take part, and 3, which the tuple also holds, is reported. *)
Lemma duplicate_items_mapping_keys_shared :
  let collections :=
    [PList [PInt 1; PInt 2];
     PDict [(PInt 3, PStr "hi"); (PInt 4, PStr "ha")];
     PTuple [PInt 2; PInt 3]] in
  duplicate_items collections = Ok [PInt 2; PInt 3]
  ∧ ∃ y, y ∈ [PInt 2; PInt 3] ∧ hash_key y = hash_key (PInt 3).
Proof.
  intros collections. split; [reflexivity |].
  destruct (duplicate_items_mapping_keys
              [PList [PInt 1; PInt 2]]
              [(PInt 3, PStr "hi"); (PInt 4, PStr "ha")]
              [PTuple [PInt 2; PInt 3]]) as (_ & _ & Hshared).
  apply (Hshared (PInt 3) (PInt 3) [PInt 2; PInt 3]
           (KNum (Qc_of_Z 3)) [PInt 2; PInt 3]).
  - left.
  - reflexivity.
  - right. left. right. left.
  - right. left.
  - reflexivity.
  - reflexivity.
Defined.

(** C1, claim as stated, at a scorer that raises [ValueError]: the
    exception propagates out of [on_batch_end]. *)
Lemma on_batch_end_ValueError_propagates :
  let self := accuracy (raising ValueError) (Some true) in
  let w := world (one_batch 1) (initialize self) in
  _scoring no_net_score no_named_scorer self (net w) inputs labels
  = Raise ValueError
  ∧ BatchScoring_on_batch_end no_net_score no_named_scorer
      self inputs labels false w
    = (Raise ValueError, w).
Proof. split; reflexivity. Qed.

(** C1 (as amended) at a scorer that raises [KeyError]. *)
Lemma on_batch_end_KeyError_ignored :
  let self := accuracy (raising KeyError) (Some true) in
  let w := world (one_batch 1) (initialize self) in
  BatchScoring_on_batch_end no_net_score no_named_scorer
    self inputs labels false w
  = (Ok tt, w).
Proof.
  intros self w.
  apply (on_batch_end_scorer_failure no_net_score no_named_scorer
           self inputs labels labels false w KeyError);
    reflexivity.
Defined.

(** C7 at a validation dataset without input and target views. *)
Lemma EpochScoring_custom_dataset_warns :
  let self := accuracy (constant 1) (Some true) in
  let w := world (one_batch 1) (initialize self) in
  EpochScoring_on_epoch_end no_net_score no_named_scorer self
    (DatasetXy inputs labels) DatasetCustom w
  = (Ok tt,
     {| net := net w; fitted := fitted w; warnings := [epoch_warning] |}).
Proof.
  intros self w.
  apply (EpochScoring_dataset_failure no_net_score no_named_scorer
           self (DatasetXy inputs labels) DatasetCustom w AttributeError).
  reflexivity.
Defined.

(** C3 at an [EpochScoring] callback with the direction disabled: the
    score 0.5 is recorded, the flag is not. *)
Lemma best_flag_omitted_epoch_scoring :
  let self := accuracy (constant (Q2Qc (1 # 2))) None in
  let w := world (one_batch 1) (initialize self) in
  let w' :=
    (EpochScoring_on_epoch_end no_net_score no_named_scorer self
       (DatasetXy inputs labels) (DatasetXy inputs labels) w).2 in
  fitted w' = fitted w
  ∧ field_at (history (net w')) 0 "accuracy_best" = None.
Proof.
  intros self w w'.
  destruct (best_flag_omitted_when_disabled (raising KeyError)
              no_named_scorer (EpochScoring self) eq_refl) as [Hevent _].
  destruct (Hevent w w') as [Hfitted Hfield].
  { exists (DatasetXy inputs labels), (DatasetXy inputs labels). reflexivity. }
  split; [exact Hfitted |].
  etrans; [apply (Hfield 0%nat) | reflexivity].
Defined.

(** Evaluate [get_avg_score] on a concrete history. *)
Ltac eval_avg_score :=
  match goal with
  | |- ?lhs = Ok _ =>
      let E := fresh "E" in
      destruct lhs as [q|err] eqn:E; vm_compute in E;
      [injection E as <-; f_equal; apply Qc_is_canon; reflexivity
      | discriminate E]
  end.

(** C5 at the spec's example: batch records (score 0.8, 2 samples) and
    (score 0.6, 1 sample) average to (0.8*2 + 0.6*1)/3. *)
Lemma get_avg_score_two_batches :
  let self := accuracy (constant 1) (Some true) in
  let w := world two_batches (initialize self) in
  let avg := ((Q2Qc (8 # 10) * Q2Qc 2 + Q2Qc (6 # 10) * Q2Qc 1) / Q2Qc 3)%Qc in
  get_avg_score self (fitted w) (history (net w)) = Ok avg
  ∧ last_field (history (net (BatchScoring_on_epoch_end self w).2)) "accuracy"
    = Some (HNum avg).
Proof.
  intros self w avg.
  destruct (get_avg_score_weighted_average self w []
              (Epoch ∅
                 [ {[ "valid_batch_size" := HInt 2;
                      "accuracy" := HNum (Q2Qc (8 # 10)) ]};
                   {[ "valid_batch_size" := HInt 1;
                      "accuracy" := HNum (Q2Qc (6 # 10)) ]} ])
              eq_refl) as [Havg Hrec].
  - vm_compute. discriminate.
  - intros Hzero. apply (f_equal (λ q : Qc, Qnum q)) in Hzero.
    vm_compute in Hzero. discriminate Hzero.
  - assert (weighted_average
              (batch_scores "valid_batch_size" "accuracy"
                 (Epoch ∅
                    [ {[ "valid_batch_size" := HInt 2;
                         "accuracy" := HNum (Q2Qc (8 # 10)) ]};
                      {[ "valid_batch_size" := HInt 1;
                         "accuracy" := HNum (Q2Qc (6 # 10)) ]} ]))
            = avg) as Hval
      by (apply Qc_is_canon; reflexivity).
    split.
    + exact (eq_trans Havg (f_equal Ok Hval)).
    + exact (eq_trans Hrec (f_equal (λ q, Some (HNum q)) Hval)).
Defined.

(** C6 at one-batch epochs whose averages are 0.9 and 1.1. *)
Lemma BatchScoring_best_flag_one_batch :
  let self := accuracy (constant 1) (Some true) in
  let f := {| best_score_ := Fin 1; name_ := "accuracy" |} in
  let low := (BatchScoring_on_epoch_end self
                (world (one_batch (Q2Qc (9 # 10))) f)).2 in
  let high := (BatchScoring_on_epoch_end self
                 (world (one_batch (Q2Qc (11 # 10))) f)).2 in
  (last_field (history (net low)) "accuracy_best" = Some (HBool true)
   ∧ best_score_ (fitted low) = Fin (Q2Qc (9 # 10)))
  ∧ (last_field (history (net high)) "accuracy_best" = Some (HBool false)
     ∧ best_score_ (fitted high) = Fin 1).
Proof.
  intros self f low high. split.
  - apply (BatchScoring_best_flag self (world (one_batch (Q2Qc (9 # 10))) f)
             (Q2Qc (9 # 10)));
      [reflexivity | reflexivity | eval_avg_score | reflexivity].
  - apply (BatchScoring_best_flag self (world (one_batch (Q2Qc (11 # 10))) f)
             (Q2Qc (11 # 10)));
      [reflexivity | reflexivity | eval_avg_score | reflexivity].
Defined.

(** C4 at a lower-is-better [BatchScoring] callback over one epoch-end
    event. *)
Lemma best_score_monotone_one_epoch :
  let self := accuracy (constant 1) (Some true) in
  let w0 := world (one_batch (Q2Qc (9 # 10))) (initialize self) in
  let w1 := (BatchScoring_on_epoch_end self w0).2 in
  best_score_ (fitted w0) = PosInf
  ∧ xle (best_score_ (fitted w1)) (best_score_ (fitted w0)).
Proof.
  intros self w0 w1.
  destruct (best_score_monotone no_net_score no_named_scorer
              (BatchScoring self) w0 w0 w1) as [Hlower _].
  - reflexivity.
  - apply rtc_refl.
  - apply rtc_once. left. reflexivity.
  - destruct (Hlower eq_refl) as (Hstart & Hle & _). by split.
Defined.

(** * Further properties of the utilities *)

Section params_for_facts.
Context {V : Type}.
Implicit Types (kwargs : list (string * V)) (prefix key : string).

Lemma startswith_app p t : startswith (p +:+ t) p = true.
Proof.
  induction p as [|c p IH]; simpl; [done |].
  by rewrite Ascii.eqb_refl, IH.
Qed.

Lemma startswith_inv s p : startswith s p = true → ∃ t, s = p +:+ t.
Proof.
  revert s. induction p as [|c p IH]; intros s; simpl; [by eexists |].
  destruct s as [|d s]; [done |].
  intros [Hc Hs]%andb_prop. apply Ascii.eqb_eq in Hc as ->.
  destruct (IH _ Hs) as [t ->]. by exists t.
Qed.

Lemma drop_chars_app p t : drop_chars (String.length p) (p +:+ t) = t.
Proof. induction p as [|c p IH]; simpl; [by destruct t | done]. Qed.

Lemma endswith_app t p : endswith (t +:+ p) p = true.
Proof.
  unfold endswith.
  assert (String.length (t +:+ p)
          = (String.length t + String.length p)%nat) as ->.
  { induction t as [|c t IH]; simpl; [done | by rewrite IH]. }
  apply andb_true_intro. split; [apply Nat.leb_le; lia |].
  apply bool_decide_eq_true.
  replace (String.length t + String.length p - String.length p)%nat
    with (String.length t) by lia.
  apply drop_chars_app.
Qed.

Lemma full_prefix_idemp prefix : full_prefix (full_prefix prefix) = full_prefix prefix.
Proof.
  unfold full_prefix. destruct (endswith prefix "__") eqn:He; simpl.
  - by rewrite He.
  - by rewrite endswith_app.
Qed.

Lemma elem_of_params_for prefix kwargs k v :
  (k, v) ∈ params_for prefix kwargs
  ↔ (full_prefix prefix +:+ k, v) ∈ kwargs.
Proof.
  unfold params_for. rewrite list_elem_of_omap. split.
  - intros ([key val] & Hin & Hf). simpl in Hf.
    destruct (startswith key (full_prefix prefix)) eqn:Hs; [|done].
    destruct (startswith_inv _ _ Hs) as [t ->].
    rewrite drop_chars_app in Hf. by injection Hf as <- <-.
  - intros Hin. exists (full_prefix prefix +:+ k, v). split; [done |].
    simpl. by rewrite startswith_app, drop_chars_app.
Qed.

(** X1: [params_for] returns exactly the items of [kwargs] whose key
    starts with the prefix (completed by two underscores when it does not
    end in them), under the key with that prefix cut off. *)
Theorem params_for_items prefix kwargs k v :
  (k, v) ∈ params_for prefix kwargs
  ↔ ∃ key, (key, v) ∈ kwargs
           ∧ key = (if endswith prefix "__" then prefix else prefix +:+ "__")
                   +:+ k.
Proof.
  rewrite elem_of_params_for. unfold full_prefix.
  destruct (endswith prefix "__"); simpl.
  - split; [intros H; eauto | by intros (key & H & ->)].
  - split; [intros H; eauto | by intros (key & H & ->)].
Qed.

(** X2: the keys of the result are distinct when those of [kwargs]
    are: cutting the common prefix off merges no two entries. *)
Theorem params_for_NoDup prefix kwargs :
  NoDup (kwargs.*1) → NoDup ((params_for prefix kwargs).*1).
Proof.
  induction kwargs as [|[key val] kwargs IH]; intros Hnd; [constructor |].
  apply NoDup_cons in Hnd as [Hkey Hnd]. specialize (IH Hnd).
  unfold params_for in *. cbn [omap list_omap]. simpl.
  destruct (startswith key (full_prefix prefix)) eqn:Hs; [|done].
  cbn [fmap list_fmap]. simpl. apply NoDup_cons. split; [|done].
  destruct (startswith_inv _ _ Hs) as [t ->]. rewrite drop_chars_app.
  intros ([k v] & -> & Hin)%list_elem_of_fmap. simpl in *.
  apply Hkey. apply list_elem_of_fmap.
  exists (full_prefix prefix +:+ k, v). split; [done |].
  by apply elem_of_params_for.
Qed.

(** X3: prefixing every key and extracting again gives the parameters
    back, in the same order. *)
Theorem params_for_prefixed prefix kwargs :
  params_for prefix ((λ kv, (full_prefix prefix +:+ kv.1, kv.2)) <$> kwargs)
  = kwargs.
Proof.
  unfold params_for.
  induction kwargs as [|[key val] kwargs IH]; [done |].
  cbn [fmap list_fmap omap list_omap]. simpl.
  rewrite startswith_app, drop_chars_app. f_equal. exact IH.
Qed.

(** X4: writing the two underscores oneself changes nothing. *)
Theorem params_for_full_prefix prefix kwargs :
  params_for (full_prefix prefix) kwargs = params_for prefix kwargs.
Proof. unfold params_for. by rewrite full_prefix_idemp. Qed.

End params_for_facts.

Section conversion_facts.
Variable gpu : bool.

(** X5: an array converted by [to_tensor], on either device, comes
    back from [to_numpy] as the array it was. *)
Theorem to_numpy_to_tensor dt items use_cuda T :
  to_tensor gpu (PNdarray dt items) use_cuda = Ok T →
  to_numpy T = Ok (PNdarray dt items).
Proof.
  simpl. unfold to_tensor_leaf. simpl.
  destruct (torch_supports dt); simpl; [|done].
  destruct use_cuda, gpu; simpl; try done; by intros [= <-].
Qed.


(** X6: whatever [to_tensor] returns holds torch values only, in lists
    and as dict values (no tuple, array or scalar is left); with
    [use_cuda], every tensor of the result that is not inside a Variable
    is on the GPU. *)
Theorem to_tensor_converted X use_cuda T :
  to_tensor gpu X use_cuda = Ok T →
  converted T = true ∧ (use_cuda = true → tensors_on_cuda T = true).
Proof.
  revert T.
  induction X as
    [| | | | | |l IH|l IH|kvs IH|dt l _|c dt l _|d _|d b _ _|l _]
    using pyval_nested_ind;
    intros T H;
    try (cbn in H; discriminate);
    try (match type of H with
         | to_tensor gpu ?x _ = _ => apply (to_tensor_leaf_torch gpu x) in H as [Ht Hc]
         end;
         destruct T; try discriminate; split; try done;
         intros Hcuda; specialize (Hc Hcuda); simpl in Hc;
         destruct gpu; by simplify_eq).
  - simpl in H.
    destruct (comprehension _ l) as [r|] eqn:Hr; [|done]. injection H as <-.
    apply comprehension_ok_Forall2 in Hr. simpl.
    assert (Forall (λ y, converted y = true
                         ∧ (use_cuda = true → tensors_on_cuda y = true)) r)
      as Hall.
    { clear -IH Hr. induction Hr as [|x y l r Hxy _ IHr]; [constructor |].
      apply Forall_cons in IH as [Hx IH]. constructor; auto. }
    split; [|intros Hcuda]; apply forallb_forall; intros y Hy;
      apply list_elem_of_In in Hy;
      rewrite Forall_forall in Hall; destruct (Hall y Hy); auto.
  - simpl in H.
    destruct (comprehension _ l) as [r|] eqn:Hr; [|done]. injection H as <-.
    apply comprehension_ok_Forall2 in Hr. simpl.
    assert (Forall (λ y, converted y = true
                         ∧ (use_cuda = true → tensors_on_cuda y = true)) r)
      as Hall.
    { clear -IH Hr. induction Hr as [|x y l r Hxy _ IHr]; [constructor |].
      apply Forall_cons in IH as [Hx IH]. constructor; auto. }
    split; [|intros Hcuda]; apply forallb_forall; intros y Hy;
      apply list_elem_of_In in Hy;
      rewrite Forall_forall in Hall; destruct (Hall y Hy); auto.
  - simpl in H.
    destruct (comprehension _ kvs) as [r|] eqn:Hr; [|done]. injection H as <-.
    apply comprehension_ok_Forall2 in Hr. simpl.
    assert (Forall (λ kv, converted kv.2 = true
                          ∧ (use_cuda = true → tensors_on_cuda kv.2 = true)) r)
      as Hall.
    { clear -IH Hr. induction Hr as [|[k v] [k' v'] l r Hxy _ IHr];
        [constructor |].
      apply Forall_cons in IH as [[_ Hv] IH]. constructor; [|auto].
      simpl in *. destruct (to_tensor gpu v use_cuda) as [val|] eqn:Hval; [|done].
      injection Hxy as <- <-. by apply Hv. }
    split; [|intros Hcuda]; apply forallb_forall; intros y Hy;
      apply list_elem_of_In in Hy;
      rewrite Forall_forall in Hall; destruct (Hall y Hy); auto.
  - simpl in H. by injection H as <-.
  - simpl in H. by injection H as <-.
Qed.



End conversion_facts.

Section flatten_facts.

Lemma flatten_item_leaves v :
  Forall (λ x, is_container x = false) (flatten_item v).
Proof.
  induction v as
    [| | | | | |l IH|l IH|kvs IH|dt l _|c dt l _|d _|d b IHd IHb|l _]
    using pyval_nested_ind;
    try (by repeat constructor).
  - simpl. induction IH as [|x l Hx _ IHl]; simpl; [constructor |].
    by apply Forall_app.
  - simpl. induction IH as [|x l Hx _ IHl]; simpl; [constructor |].
    by apply Forall_app.
  - simpl. induction IH as [|[k v] l [Hk _] _ IHl]; simpl; [constructor |].
    by apply Forall_app.
  - simpl. by apply Forall_app.
Qed.

Lemma flatten_leaves l :
  Forall (λ x, is_container x = false) l → flatten l = l.
Proof.
  unfold flatten. induction 1 as [|x l Hx _ IH]; simpl; [done |].
  rewrite IH. by destruct x.
Qed.

(** X8: [flatten] yields no list, tuple or dict, at any depth of
    nesting, and flattening what it yields changes nothing. *)
Theorem flatten_flat arr :
  Forall (λ x, is_container x = false) (flatten arr)
  ∧ flatten (flatten arr) = flatten arr.
Proof.
  assert (Forall (λ x, is_container x = false) (flatten arr)) as Hflat.
  { unfold flatten. induction arr as [|v arr IH]; simpl; [constructor |].
    apply Forall_app. split; [apply flatten_item_leaves | done]. }
  split; [done | by apply flatten_leaves].
Qed.

(** X9: how the items are grouped into collections does not matter to
    [duplicate_items]: a list or tuple argument can be replaced by its
    items, passed as arguments of their own. *)
Theorem duplicate_items_spliced before l after :
  duplicate_items (before ++ PList l :: after)
  = duplicate_items (before ++ l ++ after)
  ∧ duplicate_items (before ++ PTuple l :: after)
    = duplicate_items (before ++ l ++ after).
Proof.
  unfold duplicate_items.
  split; f_equal; f_equal; rewrite !flatten_app; f_equal;
    unfold flatten; simpl; by rewrite <-flat_map_app.
Qed.

Lemma existsb_same_key_intro k l y :
  y ∈ l → hash_key y = Ok k → existsb (same_key k) l = true.
Proof.
  intros Hin Hk. rewrite existsb_same_key. apply Nat.leb_le.
  by apply (occurrences_elem k y).
Qed.

(** X10: when [duplicate_items] returns, an item is in the result
    exactly when items equal to it occur at least twice among all the
    flattened items. *)
Theorem duplicate_items_reported collections d h :
  duplicate_items collections = Ok d →
  (∃ y, y ∈ d ∧ hash_key y = Ok h)
  ↔ (2 ≤ occurrences h (flatten collections))%nat.
Proof.
  intros Hd. rewrite <-Nat.leb_le, <-(duplicate_items_spec _ _ h Hd). split.
  - intros (y & Hin & Hk). by apply (existsb_same_key_intro h d y).
  - apply existsb_same_key_elem.
Qed.

Lemma occurrences_Permutation k l1 l2 :
  l1 ≡ₚ l2 → occurrences k l1 = occurrences k l2.
Proof.
  induction 1 as [|x l1 l2 _ IH|x y l|l1 l2 l3 _ IH1 _ IH2]; simpl;
    [done | by rewrite IH | lia | congruence].
Qed.

Lemma flatten_Permutation l1 l2 : l1 ≡ₚ l2 → flatten l1 ≡ₚ flatten l2.
Proof.
  unfold flatten.
  induction 1 as [|x l1 l2 _ IH|x y l|l1 l2 l3 _ IH1 _ IH2]; simpl.
  - done.
  - by rewrite IH.
  - rewrite !(assoc app). f_equiv. apply Permutation_app_comm.
  - by etrans.
Qed.

(** The loop goes through exactly when every item can be hashed. *)
Lemma duplicate_fold_ok items duplicates seen :
  Forall (λ x, ∃ k, hash_key x = Ok k) items ↔
  ∃ r, fold_left duplicate_step items (Ok (duplicates, seen)) = Ok r.
Proof.
  revert duplicates seen.
  induction items as [|x items IH]; intros duplicates seen; simpl.
  - split; [by eexists | constructor].
  - unfold set_contains, set_add, set_contains.
    destruct (hash_key x) as [k|e] eqn:Hk; simpl.
    + destruct (existsb (same_key k) seen); simpl;
        rewrite Forall_cons, <-IH;
        (split; [by intros [_ ?] | intros ?; split; [by exists k | done]]).
    + rewrite duplicate_fold_raise. split.
      * intros [[k Hk'] _]%Forall_cons. congruence.
      * by intros [r ?].
Qed.

(** X11: the order of the collections, and of the items in the call,
    does not matter to [duplicate_items]: after a permutation of its
    arguments it returns again, with the same items reported. *)
Theorem duplicate_items_Permutation collections collections' d :
  collections ≡ₚ collections' →
  duplicate_items collections = Ok d →
  ∃ d', duplicate_items collections' = Ok d'
        ∧ ∀ h, (∃ y, y ∈ d ∧ hash_key y = Ok h)
               ↔ (∃ y, y ∈ d' ∧ hash_key y = Ok h).
Proof.
  intros Hperm%flatten_Permutation Hd.
  assert (∃ d', duplicate_items collections' = Ok d') as [d' Hd'].
  { unfold duplicate_items in *.
    destruct (fold_left _ (flatten collections) _) as [r|] eqn:Hr; [|done].
    assert (Forall (λ x, ∃ k, hash_key x = Ok k) (flatten collections'))
      as Hall.
    { rewrite <-Hperm. apply (duplicate_fold_ok _ [] []). eauto. }
    apply (duplicate_fold_ok _ [] []) in Hall as [r' ->]. by eexists. }
  exists d'. split; [done |]. intros h. split.
  - intros (y & Hin & Hk). apply existsb_same_key_elem.
    rewrite (duplicate_items_spec _ _ h Hd').
    rewrite <-(occurrences_Permutation h _ _ Hperm).
    rewrite <-(duplicate_items_spec _ _ h Hd).
    by apply (existsb_same_key_intro h d y).
  - intros (y & Hin & Hk). apply existsb_same_key_elem.
    rewrite (duplicate_items_spec _ _ h Hd).
    rewrite (occurrences_Permutation h _ _ Hperm).
    rewrite <-(duplicate_items_spec _ _ h Hd').
    by apply (existsb_same_key_intro h d' y).
Qed.

End flatten_facts.

Section multi_indexing_facts.

Lemma index_of_array_int_or_slice i :
  is_int_or_slice i = true → index_of_array i = Ok i.
Proof. by destruct i. Qed.

Lemma multi_indexing_array x i :
  is_array x = true → is_int_or_slice i = true →
  multi_indexing x i = getitem x i.
Proof.
  intros Hx Hi. destruct x; try discriminate; simpl;
    rewrite (index_of_array_int_or_slice _ Hi);
    unfold multi_indexing_tail; simpl; by rewrite Hi.
Qed.

Lemma comprehension_ext_in {A B} (f g : A → result B) l :
  Forall (λ x, f x = g x) l → comprehension f l = comprehension g l.
Proof. induction 1 as [|x l Hx _ IH]; simpl; [done |]. by rewrite Hx, IH. Qed.

(** X12: given a list or a tuple of arrays or tensors and an integer
    or slice index, [multi_indexing] indexes each of them (not the list
    itself) and returns the results as a list. *)
Theorem multi_indexing_each l i r :
  is_int_or_slice i = true →
  Forall (λ x, is_array x = true) l →
  comprehension (λ x, getitem x i) l = Ok r →
  multi_indexing (PList l) i = Ok (PList r)
  ∧ multi_indexing (PTuple l) i = Ok (PList r).
Proof.
  intros Hi Hl Hr.
  assert (comprehension (λ x, multi_indexing x i) l = Ok r) as Hrec.
  { rewrite <-Hr. apply comprehension_ext_in.
    eapply Forall_impl; [exact Hl |]. intros x Hx.
    by apply multi_indexing_array. }
  split; simpl; rewrite (index_of_array_int_or_slice _ Hi); by rewrite Hrec.
Qed.

Lemma multi_indexing_number x i :
  is_number x = true → is_int_or_slice i = true →
  multi_indexing x i = Raise TypeError.
Proof.
  intros Hx Hi. destruct x; try discriminate; simpl;
    rewrite (index_of_array_int_or_slice _ Hi);
    unfold multi_indexing_tail; simpl; by rewrite Hi.
Qed.

(** X13: a non-empty plain list of numbers is indexed as a whole, by
    an integer or a slice: the attempt to index its items fails with a
    [TypeError], which is caught.  An empty list is returned as it is,
    whatever the integer or slice. *)
Theorem multi_indexing_plain_list l i :
  is_int_or_slice i = true →
  Forall (λ x, is_number x = true) l →
  multi_indexing (PList l) i
  = match l with
    | [] => Ok (PList [])
    | _ :: _ => getitem (PList l) i
    end.
Proof.
  intros Hi Hl. simpl. rewrite (index_of_array_int_or_slice _ Hi).
  destruct Hl as [|x l Hx Hl]; [done |].
  cbn [comprehension]. rewrite (multi_indexing_number _ _ Hx Hi).
  unfold multi_indexing_tail. simpl. by rewrite Hi.
Qed.

Lemma nonzero_rows_flat mask i :
  Forall (λ m, ∃ b, m = PBool b) mask →
  (fix rows (i : Z) (l : list pyval) : list (list Z) :=
     match l with
     | [] => []
     | x :: r => (cons i <$> nonzero_coords x) ++ rows (i + 1) r
     end) i mask
  = (λ p, [p]) <$> true_positions i mask.
Proof.
  intros Hmask. revert i.
  induction Hmask as [|m mask [b ->] _ IH]; intros i; [done |].
  rewrite IH. by destruct b.
Qed.

Lemma nonzero_flat dt mask :
  Forall (λ m, ∃ b, m = PBool b) mask →
  nonzero (PNdarray dt mask) = [PList (PInt <$> true_positions 0 mask)].
Proof.
  intros Hmask. unfold nonzero.
  assert (ndim (PNdarray dt mask) = 1%nat) as ->.
  { destruct Hmask as [|m mask [b ->] _]; done. }
  cbn [seq fmap list_fmap nonzero_coords].
  rewrite (nonzero_rows_flat _ _ Hmask), <-list_fmap_compose. done.
Qed.

Lemma py_index_middle {A} (pre rest : list A) x :
  py_index (pre ++ x :: rest) (Z.of_nat (length pre)) = Ok x.
Proof.
  unfold py_index.
  rewrite (proj2 (Z.ltb_ge _ 0)) by lia.
  rewrite length_app. simpl.
  rewrite (proj2 (Z.leb_le 0 _)) by lia.
  rewrite (proj2 (Z.ltb_lt _ _)) by lia. simpl.
  rewrite Nat2Z.id, list_lookup_middle; done.
Qed.

Lemma pick_true_positions (pre rest mask : list pyval) :
  length mask = length rest →
  comprehension (py_index (pre ++ rest))
    (true_positions (Z.of_nat (length pre)) mask)
  = Ok (masked rest mask).
Proof.
  revert pre rest. induction mask as [|m mask IH]; intros pre rest Hlen.
  - by destruct rest.
  - destruct rest as [|x rest]; [done |]. injection Hlen as Hlen.
    cbn [true_positions masked].
    specialize (IH (pre ++ [x]) rest Hlen).
    rewrite <-(assoc app), length_app in IH. simpl in IH.
    replace (Z.of_nat (length pre + 1)) with (Z.of_nat (length pre) + 1)
      in IH by lia.
    destruct (truthy m); [|exact IH].
    cbn [comprehension]. rewrite py_index_middle, IH. done.
Qed.

(** X14: a boolean mask as long as a one-dimensional array selects
    from it exactly the items at which the mask is true, in order. *)
Theorem multi_indexing_mask dt items mask :
  length mask = length items →
  Forall (λ m, ∃ b, m = PBool b) mask →
  multi_indexing (PNdarray dt items) (PNdarray dt_bool mask)
  = Ok (PNdarray dt (masked items mask)).
Proof.
  intros Hlen Hmask.
  cbn [multi_indexing index_of_array]. rewrite decide_True by done.
  rewrite (nonzero_flat _ _ Hmask).
  unfold multi_indexing_tail, safe_indexing, getitem, array_getitem.
  cbn [is_pandas_ndframe is_int_or_slice comprehension ints_of].
  rewrite (comprehension_total int_of (λ v, match v with
                                            | PInt z => z
                                            | _ => 0
                                            end))
    by (apply Forall_fmap, Forall_true; done).
  rewrite <-list_fmap_compose.
  change ((λ v, match v with PInt z => z | _ => 0 end) ∘ PInt) with (@id Z).
  rewrite list_fmap_id. cbn [mbind result_bind zip_star].
  assert (∀ ps, comprehension (array_at (PNdarray dt items))
                  ((λ x, [x]) <$> ps)
                = comprehension (py_index items) ps) as ->.
  { induction ps as [|p ps IH]; [done |].
    cbn [fmap list_fmap comprehension]. rewrite IH. done. }
  pose proof (pick_true_positions [] items mask Hlen) as Hpick.
  change (comprehension (py_index items) (true_positions 0 mask)
          = Ok (masked items mask)) in Hpick.
  by rewrite Hpick.
Qed.

End multi_indexing_facts.

(** * Further properties of the scoring callbacks *)

Section batch_end_facts.
Context {Model : Type}.
Variable net_score : scorer Model.
Variable named_scorer : string → option (scorer Model).

Local Abbreviation on_batch_end :=
  (BatchScoring_on_batch_end net_score named_scorer).

Ltac run_batch :=
  unfold history_record, history_record_batch, set_history,
    set_best_score_, warn, try_catch, get_net, get_fitted, lift,
    mbind, M_bind, mret, M_ret in *;
  simpl in *.

Lemma on_last_inv {A} (f : A → result A) l l' :
  on_last f l = Ok l' →
  ∃ l0 x x', l = l0 ++ [x] ∧ f x = Ok x' ∧ l' = l0 ++ [x'].
Proof.
  destruct l as [|x l _] using rev_ind; [done |].
  rewrite on_last_snoc. destruct (f x) as [x'|] eqn:Hx; [|done].
  intros [= <-]. by exists l, x, x'.
Qed.

Lemma record_batch_inv attr value h h' :
  record_batch attr value h = Ok h' →
  ∃ h0 m bs b,
    h = h0 ++ [Epoch m (bs ++ [b])]
    ∧ h' = h0 ++ [Epoch m (bs ++ [<[attr := value]> b])].
Proof.
  unfold record_batch. intros (h0 & [m bl] & e' & -> & He & ->)%on_last_inv.
  simpl in He.
  destruct (on_last _ bl) as [bl'|] eqn:Hbl; [|done]. injection He as <-.
  apply on_last_inv in Hbl as (bs & b & b' & -> & [= <-] & ->).
  by exists h0, m, bs, b.
Qed.

Lemma record_batch_snoc attr value h m bs b :
  record_batch attr value (h ++ [Epoch m (bs ++ [b])])
  = Ok (h ++ [Epoch m (bs ++ [<[attr := value]> b])]).
Proof. unfold record_batch. rewrite on_last_snoc. simpl. by rewrite on_last_snoc. Qed.

(** X15: on a batch of the configured phase that is scored, the score
    is written under the callback's name into the last batch record of
    the last epoch, beside what that record already holds; the rest of
    the history is not touched. *)
Theorem on_batch_end_records self X y y' s w h m bs b :
  target_extractor self y = Ok y' →
  _scoring net_score named_scorer self (net w) X y' = Ok s →
  history (net w) = h ++ [Epoch m (bs ++ [b])] →
  on_batch_end self X y (on_train self) w
  = (Ok tt,
     {| net :=
          {| module_ := module_ (net w);
             history :=
               h ++ [Epoch m (bs ++ [<[name_ (fitted w) := HNum s]> b])] |};
        fitted := fitted w;
        warnings := warnings w |}).
Proof.
  intros Hy Hs Hh. unfold BatchScoring_on_batch_end.
  rewrite eqb_reflx. run_batch. rewrite Hy. simpl. rewrite Hs. simpl.
  by rewrite Hh, record_batch_snoc.
Qed.

Lemma on_batch_end_cases self X y training w :
  (on_batch_end self X y training w).2 = w
  ∨ ∃ s h',
      record_batch (name_ (fitted w)) (HNum s) (history (net w)) = Ok h'
      ∧ (on_batch_end self X y training w).2
        = {| net := {| module_ := module_ (net w); history := h' |};
             fitted := fitted w;
             warnings := warnings w |}.
Proof.
  unfold BatchScoring_on_batch_end.
  destruct (negb (eqb training (on_train self))); [by left |].
  run_batch. destruct (target_extractor self y) as [y'|]; simpl; [|by left].
  destruct (_scoring _ _ _ _ _ _) as [s|e]; simpl;
    [|left; by destruct (decide (e = KeyError))].
  destruct (record_batch _ _ _) as [h'|e] eqn:Hrec; simpl;
    [right; eauto | left; by destruct (decide (e = KeyError))].
Qed.

(** X16: whatever the batch and whatever the scorer does,
    [on_batch_end] changes neither the callback's best score and name,
    nor the warnings, nor the net's module, nor any epoch-level field;
    and in the batch records (whose number stays the same) it changes no
    key other than the callback's name. *)
Theorem on_batch_end_frame self X y training w :
  let w' := (on_batch_end self X y training w).2 in
  fitted w' = fitted w
  ∧ warnings w' = warnings w
  ∧ module_ (net w') = module_ (net w)
  ∧ fields <$> history (net w') = fields <$> history (net w)
  ∧ ∀ k, k ≠ name_ (fitted w) →
      (λ e, (λ b : gmap string hval, b !! k) <$> batches e)
        <$> history (net w')
      = (λ e, (λ b : gmap string hval, b !! k) <$> batches e)
          <$> history (net w).
Proof.
  intros w'. unfold w'.
  destruct (on_batch_end_cases self X y training w)
    as [->|(s & h' & Hrec & ->)]; [done |].
  simpl. apply record_batch_inv in Hrec as (h0 & m & bs & b & -> & ->).
  repeat split; try done.
  - by rewrite !fmap_app.
  - intros k Hk. rewrite !fmap_app. simpl. rewrite !fmap_app. simpl.
    by rewrite lookup_insert_ne.
Qed.

End batch_end_facts.

Section epoch_end_facts.
Context {Model : Type}.
Variable net_score : scorer Model.
Variable named_scorer : string → option (scorer Model).

Local Abbreviation epoch_on_epoch_end :=
  (EpochScoring_on_epoch_end net_score named_scorer).
Local Abbreviation batch_on_epoch_end := (@BatchScoring_on_epoch_end Model).
Local Abbreviation epoch_end_of := (epoch_end net_score named_scorer).
Local Abbreviation best w := (best_score_ (fitted w)).

Ltac run_epoch :=
  unfold history_record, history_record_batch, set_history,
    set_best_score_, warn, try_catch, get_net, get_fitted, lift,
    mbind, M_bind, mret, M_ret in *;
  simpl in *.

Lemma omap_all_None {A B} (f : A → option B) l :
  Forall (λ x, f x = None) l → omap f l = [].
Proof. induction 1 as [|x l Hx _ IH]; simpl; [done |]. by rewrite Hx. Qed.

(** X17: when no batch record of the epoch holds a score under the
    callback's name, [BatchScoring.on_epoch_end] does nothing: it
    records no average and no flag, keeps the best score and raises
    nothing. *)
Theorem BatchScoring_no_scores (self : ScoringBase Model) w h e :
  history (net w) = h ++ [e] →
  Forall (λ b : gmap string hval, b !! name_ (fitted w) = None) (batches e) →
  batch_on_epoch_end self w = (Ok tt, w).
Proof.
  intros Hh Hnone. unfold BatchScoring_on_epoch_end. run_epoch.
  rewrite Hh, last_batches_snoc, omap_all_None; [done |].
  eapply Forall_impl; [exact Hnone |]. intros b Hb.
  unfold batch_row. simpl. by rewrite Hb.
Qed.

Lemma batch_on_epoch_end_net (self : ScoringBase Model) w :
  module_ (net (batch_on_epoch_end self w).2) = module_ (net w)
  ∧ warnings (batch_on_epoch_end self w).2 = warnings w.
Proof.
  destruct (get_avg_score self (fitted w) (history (net w))) as [avg|err]
    eqn:Havg.
  - destruct (get_avg_score_found _ _ _ _ Havg) as (h & e & _ & Hh & _).
    by rewrite (batch_on_epoch_end_scored _ _ _ _ _ Hh Havg).
  - rewrite batch_on_epoch_end_unscored; [done |].
    intros avg. by rewrite Havg.
Qed.

Lemma epoch_on_epoch_end_net self dataset_train dataset_valid w :
  module_ (net (epoch_on_epoch_end self dataset_train dataset_valid w).2)
  = module_ (net w).
Proof.
  unfold EpochScoring_on_epoch_end. run_epoch.
  destruct (data_from_dataset _) as [[X y]|err]; simpl;
    [|by destruct (decide (err = AttributeError))].
  destruct (is_None X); simpl; [done |].
  destruct (negb (is_None y)); simpl;
    [destruct (target_extractor self y) as [y'|]; simpl; [|done] |];
    (destruct (_scoring _ _ _ _ _ _) as [s|]; simpl; [|done];
     destruct (History.record _ _ _) as [h1|]; simpl; [|done];
     destruct (_is_best_score self (fitted w) s) as [[|]|]; simpl; [| |done];
     by destruct (History.record _ _ h1)).
Qed.

(** X18: an epoch-end event of either callback leaves the net's
    module, the callback's name, the batch records of every epoch and
    the number of epochs as they were, and changes no epoch-level field
    other than the callback's name and its "_best" flag. *)
Theorem epoch_end_frame cb w w' :
  epoch_end_of cb w w' →
  module_ (net w') = module_ (net w)
  ∧ name_ (fitted w') = name_ (fitted w)
  ∧ batches <$> history (net w') = batches <$> history (net w)
  ∧ ∀ i k, k ≠ name_ (fitted w) → k ≠ name_ (fitted w) +:+ "_best" →
      field_at (history (net w')) i k = field_at (history (net w)) i k.
Proof.
  intros Hev. split.
  { destruct cb as [self|self]; simpl in Hev.
    - subst w'. apply batch_on_epoch_end_net.
    - destruct Hev as (dataset_train & dataset_valid & <-).
      apply epoch_on_epoch_end_net. }
  apply epoch_end_outcome in Hev as [Hf Hh|s h e Hh Hh' Hf].
  - by rewrite Hf, Hh.
  - rewrite Hf, Hh, Hh'. split; [|split].
    + unfold fitted_after. by case_bool_decide.
    + by rewrite !fmap_app.
    + intros i k Hk Hkb. unfold field_at, fields_after.
      destruct (decide (i < length h)%nat) as [Hi|Hi].
      * by rewrite !lookup_app_l.
      * rewrite !lookup_app_r by lia.
        destruct (i - length h)%nat; simpl; [|done].
        destruct (_is_best_score _ _ _);
          by rewrite ?(lookup_insert_ne _ (_ +:+ "_best")), lookup_insert_ne.
Qed.

(** X19: with a comparison direction set, an epoch-end event of either
    callback either records nothing (history and best score stay), or
    records a score [s] under the callback's name together with the flag
    "[s] is strictly better than the best score so far", and the best
    score becomes [s] exactly when that flag is true. *)
Theorem epoch_end_flag cb w w' lower :
  lower_is_better (config cb) = Some lower →
  epoch_end_of cb w w' →
  (fitted w' = fitted w ∧ history (net w') = history (net w))
  ∨ ∃ s,
      let better :=
        if lower then xltb (Fin s) (best w) else xltb (best w) (Fin s) in
      last_field (history (net w')) (name_ (fitted w)) = Some (HNum s)
      ∧ last_field (history (net w')) (name_ (fitted w) +:+ "_best")
        = Some (HBool better)
      ∧ best w' = if better then Fin s else best w.
Proof.
  intros Hdir [Hf Hh|s h e Hh Hh' Hf]%epoch_end_outcome; [by left |].
  right. exists s. cbv zeta.
  rewrite Hh', Hf, !last_field_snoc.
  unfold fields_after, fitted_after, _is_best_score. rewrite Hdir.
  cbn [fields].
  destruct lower;
    [set (better := xltb (Fin s) (best w))
    |set (better := xltb (best w) (Fin s))];
    (split; [by rewrite lookup_insert_ne, lookup_insert_eq
               by apply best_key_fresh |];
     split; [by rewrite lookup_insert_eq |];
     by destruct better).
Qed.

(** X20: the first score recorded after [initialize] is always flagged
    as the best and becomes the best score, whichever direction is
    set. *)
Theorem first_score_is_best cb w w' lower :
  lower_is_better (config cb) = Some lower →
  initialized cb w →
  epoch_end_of cb w w' →
  (fitted w' = fitted w ∧ history (net w') = history (net w))
  ∨ ∃ s,
      last_field (history (net w')) (name_ (fitted w)) = Some (HNum s)
      ∧ last_field (history (net w')) (name_ (fitted w) +:+ "_best")
        = Some (HBool true)
      ∧ best w' = Fin s.
Proof.
  intros Hdir Hinit [Hf Hh|s h e Hh Hh' Hf]%epoch_end_outcome; [by left |].
  right. exists s.
  rewrite Hh', Hf, !last_field_snoc.
  unfold initialized in Hinit.
  unfold fields_after, fitted_after, _is_best_score.
  rewrite Hdir, Hinit. unfold initialize. rewrite Hdir.
  destruct lower; simpl;
    by rewrite lookup_insert_eq,
      (lookup_insert_ne _ (_ +:+ "_best")), lookup_insert_eq
      by apply best_key_fresh.
Qed.

Lemma xltb_irrefl a : xltb a a = false.
Proof.
  destruct a as [|q|]; simpl; [done | | done].
  apply bool_decide_eq_false_2, (irreflexivity Qclt).
Qed.

(** X21: an epoch average equal to the best score so far is not an
    improvement: [BatchScoring.on_epoch_end] records the flag [False] and
    keeps the best score, in either direction. *)
Theorem BatchScoring_tie_is_not_best (self : ScoringBase Model) w s lower :
  lower_is_better self = Some lower →
  best w = Fin s →
  get_avg_score self (fitted w) (history (net w)) = Ok s →
  let w' := (batch_on_epoch_end self w).2 in
  last_field (history (net w')) (name_ (fitted w) +:+ "_best")
  = Some (HBool false)
  ∧ fitted w' = fitted w.
Proof.
  intros Hdir Hbest Havg w'. unfold w'.
  destruct (get_avg_score_found _ _ _ _ Havg) as (h & e & _ & Hh & _).
  rewrite (batch_on_epoch_end_scored _ _ _ _ _ Hh Havg). simpl.
  rewrite last_field_snoc.
  unfold fields_after, fitted_after, _is_best_score.
  rewrite Hdir, Hbest.
  rewrite xltb_irrefl.
  destruct lower; cbn [fields]; rewrite lookup_insert_eq;
    by rewrite bool_decide_eq_false_2.
Qed.

(** X22: a dataset whose inputs are [None] makes
    [EpochScoring.on_epoch_end] return at once: nothing is scored or
    recorded, and, unlike for a dataset without input and target views,
    no warning is emitted. *)
Theorem EpochScoring_no_inputs self dataset_train dataset_valid w y :
  (if on_train self then dataset_train else dataset_valid)
  = DatasetXy PNone y →
  EpochScoring_on_epoch_end net_score named_scorer self
    dataset_train dataset_valid w
  = (Ok tt, w).
Proof.
  intros Hd. unfold EpochScoring_on_epoch_end. run_epoch. by rewrite Hd.
Qed.

(** X23: when the targets of the dataset are [None], the target
    extractor is not called: the callback behaves the same with any
    other extractor (also one that would fail on [None]). *)
Theorem EpochScoring_no_targets self extractor dataset_train dataset_valid
    w X :
  (if on_train self then dataset_train else dataset_valid)
  = DatasetXy X PNone →
  EpochScoring_on_epoch_end net_score named_scorer self
    dataset_train dataset_valid w
  = EpochScoring_on_epoch_end net_score named_scorer
      {| scoring := scoring self;
         lower_is_better := lower_is_better self;
         on_train := on_train self;
         name := name self;
         target_extractor := extractor |}
      dataset_train dataset_valid w.
Proof.
  intros Hd. unfold EpochScoring_on_epoch_end, _scoring, _is_best_score.
  run_epoch. by rewrite Hd.
Qed.

(** X24: [EpochScoring.on_epoch_end] does not catch what the scorer
    raises, a [KeyError] included: the exception propagates and nothing
    has been recorded. *)
Theorem EpochScoring_scorer_failure self dataset_train dataset_valid w
    X y y' e :
  data_from_dataset (if on_train self then dataset_train else dataset_valid)
  = Ok (X, y) →
  is_None X = false →
  (if negb (is_None y) then target_extractor self y else Ok y) = Ok y' →
  _scoring net_score named_scorer self (net w) X y' = Raise e →
  epoch_on_epoch_end self dataset_train dataset_valid w = (Raise e, w).
Proof.
  intros Hdata HX Hy He. unfold EpochScoring_on_epoch_end. run_epoch.
  rewrite Hdata. simpl. rewrite HX. simpl.
  destruct (negb (is_None y)); simpl;
    [rewrite Hy | injection Hy as <-]; simpl; by rewrite He.
Qed.

End epoch_end_facts.

Section average_facts.
Context {Model : Type}.

Local Open Scope Qc_scope.

Lemma get_avg_score_pairs (self : ScoringBase Model) f h e :
  let bs_key :=
    if on_train self then "train_batch_size" else "valid_batch_size" in
  let pairs := batch_scores bs_key (name_ f) e in
  pairs ≠ [] →
  foldr Qcplus 0 (pairs.*2) ≠ 0 →
  get_avg_score self f (h ++ [e]) = Ok (weighted_average pairs).
Proof.
  intros bs_key pairs Hne Hscl.
  unfold get_avg_score. fold bs_key.
  rewrite last_batches_snoc, batch_rows_raw.
  unfold pairs in *. rewrite batch_scores_raw in *.
  set (raw := batch_pairs bs_key (name_ f) (batches e)) in *.
  assert (raw ≠ []) as Hraw by (intros Hnil; by rewrite Hnil in Hne).
  destruct ((λ p, [p.1; p.2]) <$> raw) as [|r rs] eqn:Hrows;
    [by destruct raw |].
  rewrite <-Hrows. simpl. unfold unzip2.
  rewrite zip_star_pairs by done. simpl.
  by apply np_average_pairs.
Qed.

Lemma weights_sum_pos (pairs : list (Qc * Qc)) :
  pairs ≠ [] → Forall (λ p, 0 < p.2) pairs → 0 < foldr Qcplus 0 (pairs.*2).
Proof.
  intros Hne Hpos. destruct Hpos as [|p pairs Hp Hpos]; [done |]. clear Hne.
  simpl. apply Qcplus_pos_nonneg; [done |].
  induction Hpos as [|q pairs Hq _ IH]; simpl; [done |].
  apply Qcplus_nonneg_nonneg; [by apply Qclt_le_weak | done].
Qed.

(** X25: when at least one batch of the epoch is scored and every
    scored batch has a positive batch size, [get_avg_score] returns: the
    [ZeroDivisionError] that [np.average] raises for weights that sum to
    zero cannot occur. *)
Theorem get_avg_score_returns (self : ScoringBase Model) f h e :
  let bs_key :=
    if on_train self then "train_batch_size" else "valid_batch_size" in
  let pairs := batch_scores bs_key (name_ f) e in
  pairs ≠ [] →
  Forall (λ p, 0 < p.2) pairs →
  ∃ avg, get_avg_score self f (h ++ [e]) = Ok avg.
Proof.
  intros bs_key pairs Hne Hall.
  assert (0 < foldr Qcplus 0 (pairs.*2)) as Hpos
    by by apply weights_sum_pos.
  assert (foldr Qcplus 0 (pairs.*2) ≠ 0) as Hnz.
  { intros Hz. rewrite Hz in Hpos. by apply (irreflexivity Qclt) in Hpos. }
  exists (weighted_average pairs). by apply get_avg_score_pairs.
Qed.

End average_facts.

(** * Properties of the example's callbacks *)

Section train_facts.
Context {Params : Type}.
Implicit Types net : Train.Learner Params.

Local Open Scope Qc_scope.

(** X26: at an epoch end whose record holds the flag
    ["valid_loss_best"], exactly one of the two callbacks acts: on a best
    epoch the parameters are saved and the learning rate stays; otherwise
    the learning rate is divided by 4 and the checkpoint stays.  History
    and parameters are not changed. *)
Theorem annealing_or_checkpoint net best :
  Train.last_epoch_field (Train.history net) "valid_loss_best" = Ok best →
  ∃ net',
    Train.on_epoch_end net = Ok net'
    ∧ Train.history net' = Train.history net
    ∧ Train.params net' = Train.params net
    ∧ if Train.htruthy best
      then Train.lr net' = Train.lr net
           ∧ Train.checkpoint net' = Some (Train.params net)
      else Train.lr net' = Train.lr net / Q2Qc 4
           ∧ Train.checkpoint net' = Train.checkpoint net.
Proof.
  intros Hbest. unfold Train.on_epoch_end, Train.LRAnnealing_on_epoch_end.
  rewrite Hbest. simpl.
  destruct (Train.htruthy best) eqn:Ht; simpl;
    unfold Train.Checkpointing_on_epoch_end; simpl;
    rewrite Hbest; simpl; rewrite Ht; eauto 10.
Qed.

Lemma on_epoch_end_lr net net' :
  Train.on_epoch_end net = Ok net' →
  Train.lr net' = Train.lr net ∨ Train.lr net' = Train.lr net / Q2Qc 4.
Proof.
  unfold Train.on_epoch_end, Train.LRAnnealing_on_epoch_end.
  destruct (Train.last_epoch_field _ _) as [best|] eqn:Hbest; [|done]. simpl.
  destruct (Train.htruthy best) eqn:Ht; simpl;
    unfold Train.Checkpointing_on_epoch_end; simpl;
    rewrite Hbest; simpl; rewrite Ht; intros [= <-]; auto.
Qed.

(** X27: over any run of the training loop, the learning rate is the
    initial one divided by a power of 4: the callbacks never raise it
    and never change it in any other way. *)
Theorem annealing_power_of_4 net net' :
  rtc Train.step net net' →
  ∃ k : nat, Train.lr net' = Train.lr net / Q2Qc 4 ^ k.
Proof.
  induction 1 as [net|net net1 net2 Hstep _ [k IH]].
  - exists 0%nat. simpl. by rewrite (right_id 1 Qcdiv).
  - destruct Hstep as [[Hlr|Hlr]%on_epoch_end_lr|[Hlr _]].
    + exists k. by rewrite IH, Hlr.
    + exists (S k). rewrite IH, Hlr. simpl.
      unfold Qcdiv. rewrite Qcinv_mult_distr, Qcmult_assoc. done.
    + exists k. by rewrite IH, Hlr.
Qed.

End train_facts.

Section annealing_needs_flag.
Context {Model Params : Type}.
Variable net_score : scorer Model.
Variable named_scorer : string → option (scorer Model).

(** X28: the example's callbacks depend on the flag that scoring
    records: when the callback named ["valid_loss"] has its comparison
    direction disabled, the epoch record still lacks
    ["valid_loss_best"] after its epoch-end event, and the example's
    [on_epoch_end] fails with a [KeyError]. *)
Theorem annealing_needs_direction cb w w' (learner : Train.Learner Params) :
  lower_is_better (config cb) = None →
  name_ (fitted w) = "valid_loss" →
  epoch_end net_score named_scorer cb w w' →
  (∃ e, last (history (net w)) = Some e
        ∧ fields e !! "valid_loss_best" = None) →
  Train.history learner = history (net w') →
  Train.on_epoch_end learner = Raise KeyError.
Proof.
  intros Hnone Hname Hev (e & Hlast & Hflag) Hh.
  assert (∃ e', last (history (net w')) = Some e'
                ∧ fields e' !! "valid_loss_best" = None)
    as (e' & Hlast' & Hflag').
  { apply epoch_end_outcome in Hev as [_ Hsame|s h e0 Hh0 Hh' _].
    - rewrite Hsame. eauto.
    - rewrite Hh0, last_snoc in Hlast. injection Hlast as ->.
      rewrite Hh', last_snoc. eexists. split; [done |].
      unfold fields_after.
      rewrite (is_best_disabled _ _ _ Hnone), Hname. simpl.
      by rewrite lookup_insert_ne. }
  unfold Train.on_epoch_end, Train.LRAnnealing_on_epoch_end,
    Train.last_epoch_field.
  by rewrite Hh, Hlast', Hflag'.
Qed.

End annealing_needs_flag.

Section to_var_facts.
Variable gpu : bool.

Lemma comprehension_fuel_total {A B} (f : A → option (result B)) (g : A → B) l :
  Forall (λ x, f x = Some (Ok (g x))) l →
  comprehension_fuel f l = Some (Ok (g <$> l)).
Proof.
  induction 1 as [|x l Hx _ IH]; simpl; [done |].
  by rewrite Hx, IH.
Qed.

Lemma comprehension_fuel_sound {A B} (f : A → option (result B)) (g : A → B)
    l r :
  Forall (λ x, ∀ rx, f x = Some rx → rx = Ok (g x)) l →
  comprehension_fuel f l = Some r → r = Ok (g <$> l).
Proof.
  intros Hall. revert r.
  induction Hall as [|x l Hx _ IH]; intros r; simpl; [by intros [= <-] |].
  destruct (f x) as [[y|e]|] eqn:Hfx; [| |done].
  - pose proof (Hx _ eq_refl) as [= ->].
    destruct (comprehension_fuel f l) as [[ys|e]|]; [| |done].
    + pose proof (IH _ eq_refl) as [= ->]. by intros [= <-].
    + by pose proof (IH _ eq_refl).
  - by pose proof (Hx _ eq_refl).
Qed.

(** Fuel that suffices for each item of a list suffices for all. *)
Lemma enough_fuel_Forall {A} (P : A → nat → Prop) (l : list A) :
  Forall (λ x, ∃ n, ∀ fuel, (n ≤ fuel)%nat → P x fuel) l →
  ∃ n, ∀ fuel, (n ≤ fuel)%nat → Forall (λ x, P x fuel) l.
Proof.
  induction 1 as [|x l [n Hn] _ [m Hm]].
  - exists 0%nat. constructor.
  - exists (n `max` m)%nat. intros fuel Hfuel.
    constructor; [apply Hn | apply Hm]; lia.
Qed.

Lemma comprehension_fixed {A} (f : A → result A) l :
  comprehension f l = Ok l → Forall (λ x, f x = Ok x) l.
Proof.
  induction l as [|x l IH]; simpl; [constructor |].
  destruct (f x) as [y|] eqn:Hx; [|done].
  destruct (comprehension f l) as [ys|] eqn:Hl; [|done].
  intros [= -> ->]. constructor; auto.
Qed.

(** Below the containers, [to_tensor] returns a tensor unless it is
    given a Variable. *)
Lemma to_tensor_leaf_tensor X use_cuda T :
  (∀ d, X ≠ PVariable d) →
  to_tensor_leaf gpu X use_cuda = Ok T →
  ∃ c dt items, T = PTensor c dt items.
Proof.
  intros Hvar. unfold to_tensor_leaf.
  destruct X as [| | | | | | | | |dt0 l0| |d| |]; simpl;
    try (by destruct (Hvar d));
    repeat match goal with
      | |- context [torch_supports ?d] => destruct (torch_supports d); simpl
      | |- context [if ?b then _ else _] => destruct b; simpl
      end;
    try done; intros [= <-]; eauto.
Qed.

(** What [to_tensor] returns it returns again, and it returns a
    Variable or a PackedSequence only when given it. *)
Lemma to_tensor_result X use_cuda T :
  to_tensor gpu X use_cuda = Ok T →
  to_tensor gpu T use_cuda = Ok T
  ∧ ((∃ d, T = PVariable d) ∨ (∃ d b, T = PPackedSequence d b) → T = X).
Proof.
  revert T.
  induction X as
    [| | | | | |l IH|l IH|kvs IH|dt l _|c dt l _|d _|d b _ _|l _]
    using pyval_nested_ind;
    intros T H;
    try (cbn in H; discriminate);
    try (match type of H with
         | to_tensor gpu ?x _ = _ =>
             pose proof (to_tensor_leaf_tensor x use_cuda T
                           ltac:(discriminate) H) as (c' & dt' & l' & ->);
             apply (to_tensor_leaf_torch gpu x) in H as [??]
         end;
         split; [by apply to_tensor_torch | intros [[? [=]]|(? & ? & [=])]]).
  - simpl in H.
    destruct (comprehension _ l) as [r|] eqn:Hr; [|done].
    injection H as <-. split; [|intros [[? [=]]|(? & ? & [=])]]. simpl.
    apply comprehension_ok_Forall2 in Hr.
    rewrite (comprehension_total _ id), list_fmap_id; [done |].
    clear -IH Hr. induction Hr as [|x y l r Hxy _ IHr]; [done |].
    apply Forall_cons in IH as [Hx IH]. constructor; [|auto].
    by apply Hx.
  - simpl in H.
    destruct (comprehension _ l) as [r|] eqn:Hr; [|done].
    injection H as <-. split; [|intros [[? [=]]|(? & ? & [=])]]. simpl.
    apply comprehension_ok_Forall2 in Hr.
    rewrite (comprehension_total _ id), list_fmap_id; [done |].
    clear -IH Hr. induction Hr as [|x y l r Hxy _ IHr]; [done |].
    apply Forall_cons in IH as [Hx IH]. constructor; [|auto].
    by apply Hx.
  - simpl in H.
    destruct (comprehension _ kvs) as [r|] eqn:Hr; [|done].
    injection H as <-. split; [|intros [[? [=]]|(? & ? & [=])]]. simpl.
    apply comprehension_ok_Forall2 in Hr.
    rewrite (comprehension_total _ id), list_fmap_id; [done |].
    clear -IH Hr. induction Hr as [|[k v] [k' v'] l r Hxy _ IHr]; [done |].
    apply Forall_cons in IH as [[_ Hv] IH]. constructor; [|auto].
    simpl in *. destruct (to_tensor gpu v use_cuda) as [val|] eqn:Hval; [|done].
    injection Hxy as <- <-. simpl. by destruct (Hv _ eq_refl) as [-> _].
  - simpl in H. by injection H as <-.
  - simpl in H. by injection H as <-.
Qed.

(** [to_var] continues with what [to_tensor] returned, the way it does
    when given that value. *)
Lemma to_var_after_to_tensor X use_cuda T fuel :
  to_tensor gpu X use_cuda = Ok T →
  to_var gpu fuel X use_cuda = to_var gpu fuel T use_cuda.
Proof.
  intros H. destruct (to_tensor_result _ _ _ H) as [Hfix Hvar].
  destruct fuel as [|fuel]; [done |].
  destruct X; try (simpl in H; by injection H as <-);
    cbn [to_var]; rewrite H;
    (destruct T;
     try (specialize (Hvar ltac:(eauto)); discriminate Hvar);
     cbn [to_var]; by rewrite ?Hfix).
Qed.

(** Given a value that [to_tensor] leaves as it is, [to_var] returns,
    with every tensor wrapped. *)
Lemma to_var_fixed T use_cuda :
  to_tensor gpu T use_cuda = Ok T →
  ∃ n, ∀ fuel, (n ≤ fuel)%nat →
    to_var gpu fuel T use_cuda = Some (Ok (variables T)).
Proof.
  induction T as
    [| | | | | |l IH|l IH|kvs IH|dt l _|c dt l _|d _|d b _ _|l _]
    using pyval_nested_ind;
    intros H;
    try (match type of H with
         | to_tensor gpu ?x _ = _ =>
             by pose proof (to_tensor_leaf_tensor x use_cuda x
                              ltac:(discriminate) H) as (? & ? & ? & [=])
         end).
  - (* list *)
    assert (Forall (λ x, to_tensor gpu x use_cuda = Ok x) l) as Hl.
    { simpl in H. apply comprehension_fixed.
      destruct (comprehension _ l); [by injection H as -> | done]. }
    destruct (enough_fuel_Forall
                (λ x fuel, to_var gpu fuel x use_cuda = Some (Ok (variables x))) l)
      as [n Hn].
    { clear -IH Hl. induction Hl; [constructor |].
      apply Forall_cons in IH as [??]. constructor; auto. }
    exists (S n). intros [|fuel] Hfuel; [lia |].
    cbn [to_var]. rewrite H.
    rewrite (comprehension_fuel_total _ variables); [done |].
    apply Hn. lia.
  - (* tuple *)
    simpl in H. by destruct (comprehension _ l).
  - (* dict *)
    assert (Forall (λ kv, to_tensor gpu kv.2 use_cuda = Ok kv.2) kvs) as Hl.
    { simpl in H.
      destruct (comprehension _ kvs) as [r|] eqn:Hr; [|done].
      injection H as ->. apply comprehension_fixed in Hr.
      eapply Forall_impl; [exact Hr |].
      intros [k v]; simpl. by destruct (to_tensor gpu v use_cuda); intros [= ->]. }
    destruct (enough_fuel_Forall
                (λ kv fuel,
                   to_var gpu fuel kv.2 use_cuda = Some (Ok (variables kv.2))) kvs)
      as [n Hn].
    { clear -IH Hl. induction Hl; [constructor |].
      apply Forall_cons in IH as [[??]?]. constructor; auto. }
    exists (S n). intros [|fuel] Hfuel; [lia |].
    cbn [to_var]. rewrite H.
    rewrite (comprehension_fuel_total _ (λ kv, (kv.1, variables kv.2)));
      [done |].
    eapply Forall_impl; [apply (Hn fuel); lia |].
    intros [k v]; simpl. by intros ->.
  - (* tensor *)
    exists 1%nat. intros [|fuel] Hfuel; [lia |].
    cbn [to_var]. by rewrite H.
  - exists 1%nat. intros [|fuel] Hfuel; [lia | done].
  - exists 1%nat. intros [|fuel] Hfuel; [lia | done].
Qed.

(** Whatever the fuel, a result of [to_var] is that of [to_tensor] with
    every tensor wrapped. *)
Lemma to_var_sound fuel X use_cuda r :
  to_var gpu fuel X use_cuda = Some r →
  r = variables <$> to_tensor gpu X use_cuda.
Proof.
  revert X r. induction fuel as [|fuel IH]; intros X r; [done |].
  destruct (to_tensor gpu X use_cuda) as [T|e] eqn:H.
  - rewrite (to_var_after_to_tensor X use_cuda T) by done.
    destruct (to_tensor_result _ _ _ H) as [Hfix _]. clear H.
    destruct T as [| | | | | |l|l|kvs|dt l|c dt l|d|d b|l];
      try (match type of Hfix with
           | to_tensor gpu ?x _ = _ =>
               by pose proof (to_tensor_leaf_tensor x use_cuda x
                                ltac:(discriminate) Hfix) as (? & ? & ? & [=])
           end);
      cbn [to_var]; try rewrite Hfix; try (by intros [= <-]).
    + assert (Forall (λ x, to_tensor gpu x use_cuda = Ok x) l) as Hl.
      { simpl in Hfix. apply comprehension_fixed.
        destruct (comprehension _ l); [by injection Hfix as -> | done]. }
      destruct (comprehension_fuel _ l) as [R|] eqn:HR; [|done].
      apply (comprehension_fuel_sound _ variables) in HR as ->;
        [by intros [= <-] |].
      eapply Forall_impl; [exact Hl |].
      intros x Hx rx Hrx. apply IH in Hrx. by rewrite Hx in Hrx.
    + simpl in Hfix. by destruct (comprehension _ l).
    + assert (Forall (λ kv, to_tensor gpu kv.2 use_cuda = Ok kv.2) kvs) as Hl.
      { simpl in Hfix.
        destruct (comprehension _ kvs) as [r'|] eqn:Hr; [|done].
        injection Hfix as ->. apply comprehension_fixed in Hr.
        eapply Forall_impl; [exact Hr |].
        intros [k v]; simpl.
        by destruct (to_tensor gpu v use_cuda); intros [= ->]. }
      destruct (comprehension_fuel _ kvs) as [R|] eqn:HR; [|done].
      apply (comprehension_fuel_sound _ (λ kv, (kv.1, variables kv.2)))
        in HR as ->; [by intros [= <-] |].
      eapply Forall_impl; [exact Hl |].
      intros [k v] Hx rx; simpl in *.
      destruct (to_var gpu fuel v use_cuda) as [rv|] eqn:Hrv; [|done].
      apply IH in Hrv. rewrite Hx in Hrv. subst rv. by intros [= <-].
  - destruct X; try done; cbn [to_var]; rewrite H; by intros [= <-].
Qed.

Lemma variables_idemp v : variables (variables v) = variables v.
Proof.
  induction v as
    [| | | | | |l IH|l IH|kvs IH|dt l _|c dt l _|d _|d b _ _|l _]
    using pyval_nested_ind; try done.
  - simpl. f_equal. rewrite <-list_fmap_compose.
    apply Forall_fmap_ext, IH.
  - simpl. f_equal. rewrite <-list_fmap_compose.
    apply Forall_fmap_ext. eapply Forall_impl; [exact IH |].
    intros [k v] [_ Hv]; simpl in *. by rewrite Hv.
Qed.

Lemma to_tensor_variables T use_cuda :
  to_tensor gpu T use_cuda = Ok T →
  to_tensor gpu (variables T) use_cuda = Ok (variables T).
Proof.
  induction T as
    [| | | | | |l IH|l IH|kvs IH|dt l _|c dt l _|d _|d b _ _|l _]
    using pyval_nested_ind;
    intros H; try done.
  - assert (Forall (λ x, to_tensor gpu x use_cuda = Ok x) l) as Hl.
    { simpl in H. apply comprehension_fixed.
      destruct (comprehension _ l); [by injection H as -> | done]. }
    simpl. rewrite (comprehension_total _ id), list_fmap_id; [done |].
    apply Forall_fmap. clear -IH Hl. induction Hl; [constructor |].
    apply Forall_cons in IH as [??]. constructor; simpl; auto.
  - assert (Forall (λ kv, to_tensor gpu kv.2 use_cuda = Ok kv.2) kvs) as Hl.
    { simpl in H.
      destruct (comprehension _ kvs) as [r'|] eqn:Hr; [|done].
      injection H as ->. apply comprehension_fixed in Hr.
      eapply Forall_impl; [exact Hr |].
      intros [k v]; simpl.
      by destruct (to_tensor gpu v use_cuda); intros [= ->]. }
    simpl. rewrite (comprehension_total _ id), list_fmap_id; [done |].
    apply Forall_fmap. clear -IH Hl. induction Hl as [|[k v] ? Hv ?];
      [constructor |].
    apply Forall_cons in IH as [[_ IHv] ?]. constructor; [|auto].
    simpl in *. by rewrite (IHv Hv).
Qed.

(** X29: [to_var] returns for every argument, and what it returns is
    what [to_tensor] returns with every tensor that is not inside a
    Variable wrapped in one; it raises exactly when [to_tensor] does. *)
Theorem to_var_to_tensor X use_cuda :
  ∃ n, ∀ fuel, (n ≤ fuel)%nat →
    to_var gpu fuel X use_cuda = Some (variables <$> to_tensor gpu X use_cuda).
Proof.
  destruct (to_tensor gpu X use_cuda) as [T|e] eqn:H.
  - destruct (to_tensor_result _ _ _ H) as [Hfix _].
    destruct (to_var_fixed _ _ Hfix) as [n Hn].
    exists n. intros fuel Hfuel.
    rewrite (to_var_after_to_tensor X use_cuda T) by done.
    by apply Hn.
  - exists 1%nat. intros [|fuel] Hfuel; [lia |].
    destruct X; try done; cbn [to_var]; by rewrite H.
Qed.

(** X30: [to_var] leaves its own results as they are: given what it
    returned, it returns it again. *)
Theorem to_var_idempotent fuel X use_cuda V :
  to_var gpu fuel X use_cuda = Some (Ok V) →
  ∃ n, ∀ fuel', (n ≤ fuel')%nat → to_var gpu fuel' V use_cuda = Some (Ok V).
Proof.
  intros H. apply to_var_sound in H.
  destruct (to_tensor gpu X use_cuda) as [T|] eqn:HT; [|done].
  injection H as ->.
  destruct (to_tensor_result _ _ _ HT) as [Hfix _].
  destruct (to_var_fixed _ _ (to_tensor_variables _ _ Hfix)) as [n Hn].
  exists n. intros fuel' Hfuel. rewrite Hn by done.
  by rewrite variables_idemp.
Qed.

End to_var_facts.

(** * The further properties at concrete inputs *)

(** X2 at the docstring's parameters. *)
Lemma params_for_NoDup_encoder :
  NoDup ((params_for "encoder" module_kwargs).*1).
Proof.
  apply (params_for_NoDup "encoder" module_kwargs).
  exact (bool_decide_unpack (NoDup (module_kwargs.*1)) I).
Defined.

(** X5 at a float array moved to the GPU. *)
Lemma to_numpy_to_tensor_inputs :
  let T := PTensor true dt_float [PFloat 0; PFloat 1] in
  to_tensor true inputs true = Ok T ∧ to_numpy T = Ok inputs.
Proof.
  intros T. split; [reflexivity |].
  apply (to_numpy_to_tensor true dt_float [PFloat 0; PFloat 1] true).
  reflexivity.
Defined.

(** X6 at a dict of a list and a tuple. *)
Lemma to_tensor_converted_nested :
  let T :=
    PDict [(PStr "a", PList [PTensor true dt_int [PInt 1];
                             PTensor true dt_int [PInt 2]]);
           (PStr "b", PList [PTensor true dt_float [PFloat 0];
                             PTensor true dt_int [PInt 3]])] in
  let X :=
    PDict [(PStr "a", PList [PInt 1; PInt 2]);
           (PStr "b", PTuple [PNdarray dt_float [PFloat 0]; PInt 3])] in
  to_tensor true X true = Ok T
  ∧ converted T = true ∧ (true = true → tensors_on_cuda T = true).
Proof.
  intros T X. split; [reflexivity |].
  apply (to_tensor_converted true X true T).
  reflexivity.
Defined.


(** X10 at the docstring's [['a', 'b', 'a']]. *)
Lemma duplicate_items_reported_a :
  (∃ y, y ∈ [PStr "a"] ∧ hash_key y = Ok (KStr "a"))
  ↔ (2 ≤ occurrences (KStr "a")
           (flatten [PList [PStr "a"; PStr "b"; PStr "a"]]))%nat.
Proof.
  apply (duplicate_items_reported [PList [PStr "a"; PStr "b"; PStr "a"]]
           [PStr "a"] (KStr "a")).
  reflexivity.
Defined.

(** X11 at two collections, swapped. *)
Lemma duplicate_items_swapped :
  ∃ d', duplicate_items [PTuple [PInt 2]; PList [PInt 1; PInt 2]] = Ok d'
        ∧ ∀ h, (∃ y, y ∈ [PInt 2] ∧ hash_key y = Ok h)
               ↔ (∃ y, y ∈ d' ∧ hash_key y = Ok h).
Proof.
  apply (duplicate_items_Permutation
           [PList [PInt 1; PInt 2]; PTuple [PInt 2]]
           [PTuple [PInt 2]; PList [PInt 1; PInt 2]] [PInt 2]).
  - apply perm_swap.
  - reflexivity.
Defined.

(** X12 at two arrays and the index 0. *)
Lemma multi_indexing_each_first :
  let arrays :=
    [PNdarray dt_int [PInt 1; PInt 2; PInt 3];
     PNdarray dt_int [PInt 4; PInt 5; PInt 6]] in
  multi_indexing (PList arrays) (PInt 0) = Ok (PList [PInt 1; PInt 4])
  ∧ multi_indexing (PTuple arrays) (PInt 0) = Ok (PList [PInt 1; PInt 4]).
Proof.
  intros arrays.
  apply (multi_indexing_each arrays (PInt 0) [PInt 1; PInt 4]).
  - reflexivity.
  - repeat constructor.
  - reflexivity.
Defined.

(** X13 at [[1, 2, 3][:2]]. *)
Lemma multi_indexing_plain_list_head :
  multi_indexing (PList [PInt 1; PInt 2; PInt 3]) (PSlice None (Some 2) None)
  = Ok (PList [PInt 1; PInt 2]).
Proof.
  apply (multi_indexing_plain_list [PInt 1; PInt 2; PInt 3]
           (PSlice None (Some 2) None)).
  - reflexivity.
  - repeat constructor.
Defined.

(** X14 at the mask [[True, False, True]]. *)
Lemma multi_indexing_mask_outer :
  multi_indexing (PNdarray dt_int [PInt 1; PInt 2; PInt 3])
    (PNdarray dt_bool [PBool true; PBool false; PBool true])
  = Ok (PNdarray dt_int [PInt 1; PInt 3]).
Proof.
  apply (multi_indexing_mask dt_int [PInt 1; PInt 2; PInt 3]
           [PBool true; PBool false; PBool true]).
  - reflexivity.
  - repeat constructor; eauto.
Defined.

(** X15 at a validation batch scored 1. *)
Lemma on_batch_end_records_accuracy :
  let self := accuracy (constant 1) (Some true) in
  let w := world unscored_batch (initialize self) in
  BatchScoring_on_batch_end no_net_score no_named_scorer self
    inputs labels false w
  = (Ok tt,
     world [Epoch ∅ [ <["accuracy" := HNum 1]>
                        {[ "valid_batch_size" := HInt 2 ]} ]]
       (initialize self)).
Proof.
  intros self w.
  apply (on_batch_end_records no_net_score no_named_scorer self
           inputs labels labels 1%Qc w [] ∅ []
           {[ "valid_batch_size" := HInt 2 ]});
    reflexivity.
Defined.

(** X17 at an epoch whose batch has no score. *)
Lemma BatchScoring_no_scores_unscored :
  let self := accuracy (constant 1) (Some true) in
  let w := world unscored_batch (initialize self) in
  BatchScoring_on_epoch_end self w = (Ok tt, w).
Proof.
  intros self w.
  apply (BatchScoring_no_scores self w []
           (Epoch ∅ [ {[ "valid_batch_size" := HInt 2 ]} ])).
  - reflexivity.
  - repeat constructor.
Defined.

(** X18 at a [BatchScoring] event over a one-batch epoch. *)
Lemma epoch_end_frame_one_batch :
  let self := accuracy (constant 1) (Some true) in
  let w := world (one_batch (Q2Qc (9 # 10))) (initialize self) in
  let w' := (BatchScoring_on_epoch_end self w).2 in
  module_ (net w') = module_ (net w)
  ∧ name_ (fitted w') = name_ (fitted w)
  ∧ batches <$> history (net w') = batches <$> history (net w)
  ∧ ∀ i k, k ≠ name_ (fitted w) → k ≠ name_ (fitted w) +:+ "_best" →
      field_at (history (net w')) i k = field_at (history (net w)) i k.
Proof.
  intros self w w'.
  apply (epoch_end_frame no_net_score no_named_scorer (BatchScoring self) w w').
  reflexivity.
Defined.

(** X19 at a lower-is-better [BatchScoring] event. *)
Lemma epoch_end_flag_one_batch :
  let self := accuracy (constant 1) (Some true) in
  let w := world (one_batch (Q2Qc (9 # 10)))
             {| best_score_ := Fin 1; name_ := "accuracy" |} in
  let w' := (BatchScoring_on_epoch_end self w).2 in
  (fitted w' = fitted w ∧ history (net w') = history (net w))
  ∨ ∃ s,
      let better := xltb (Fin s) (Fin 1) in
      last_field (history (net w')) "accuracy" = Some (HNum s)
      ∧ last_field (history (net w')) "accuracy_best" = Some (HBool better)
      ∧ best_score_ (fitted w') = if better then Fin s else Fin 1.
Proof.
  intros self w w'.
  apply (epoch_end_flag no_net_score no_named_scorer (BatchScoring self)
           w w' true);
    reflexivity.
Defined.

(** X20 at the first event after [initialize]. *)
Lemma first_score_is_best_one_batch :
  let self := accuracy (constant 1) (Some false) in
  let w := world (one_batch (Q2Qc (9 # 10))) (initialize self) in
  let w' := (BatchScoring_on_epoch_end self w).2 in
  (fitted w' = fitted w ∧ history (net w') = history (net w))
  ∨ ∃ s,
      last_field (history (net w')) "accuracy" = Some (HNum s)
      ∧ last_field (history (net w')) "accuracy_best" = Some (HBool true)
      ∧ best_score_ (fitted w') = Fin s.
Proof.
  intros self w w'.
  apply (first_score_is_best no_net_score no_named_scorer (BatchScoring self)
           w w' false);
    reflexivity.
Defined.

(** X21 at an epoch whose average equals the best score 0.9. *)
Lemma BatchScoring_tie_one_batch :
  let self := accuracy (constant 1) (Some true) in
  let w := world (one_batch (Q2Qc (9 # 10)))
             {| best_score_ := Fin (Q2Qc (9 # 10)); name_ := "accuracy" |} in
  let w' := (BatchScoring_on_epoch_end self w).2 in
  last_field (history (net w')) "accuracy_best" = Some (HBool false)
  ∧ fitted w' = fitted w.
Proof.
  intros self w w'.
  apply (BatchScoring_tie_is_not_best self w (Q2Qc (9 # 10)) true);
    [reflexivity | reflexivity | eval_avg_score].
Defined.

(** X22 at a validation dataset whose inputs are [None]. *)
Lemma EpochScoring_no_inputs_valid :
  let self := accuracy (constant 1) (Some true) in
  let w := world (one_batch 1) (initialize self) in
  EpochScoring_on_epoch_end no_net_score no_named_scorer self
    (DatasetXy inputs labels) (DatasetXy PNone labels) w
  = (Ok tt, w).
Proof.
  intros self w.
  apply (EpochScoring_no_inputs no_net_score no_named_scorer self
           (DatasetXy inputs labels) (DatasetXy PNone labels) w labels).
  reflexivity.
Defined.

(** X23 at a dataset without targets: [to_numpy], which fails on
    [None], can be exchanged for an extractor that always fails. *)
Lemma EpochScoring_no_targets_valid :
  let self := accuracy (constant 1) (Some true) in
  let w := world (one_batch 1) (initialize self) in
  EpochScoring_on_epoch_end no_net_score no_named_scorer self
    (DatasetXy inputs labels) (DatasetXy inputs PNone) w
  = EpochScoring_on_epoch_end no_net_score no_named_scorer
      {| scoring := ScoringCallable "accuracy" (constant 1);
         lower_is_better := Some true;
         on_train := false;
         name := None;
         target_extractor := λ _, Raise ValueError |}
      (DatasetXy inputs labels) (DatasetXy inputs PNone) w.
Proof.
  intros self w.
  apply (EpochScoring_no_targets no_net_score no_named_scorer self
           (λ _, Raise ValueError)
           (DatasetXy inputs labels) (DatasetXy inputs PNone) w inputs).
  reflexivity.
Defined.

(** X24 at a scorer that raises [KeyError]. *)
Lemma EpochScoring_KeyError_propagates :
  let self := accuracy (raising KeyError) (Some true) in
  let w := world (one_batch 1) (initialize self) in
  EpochScoring_on_epoch_end no_net_score no_named_scorer self
    (DatasetXy inputs labels) (DatasetXy inputs labels) w
  = (Raise KeyError, w).
Proof.
  intros self w.
  apply (EpochScoring_scorer_failure no_net_score no_named_scorer self
           (DatasetXy inputs labels) (DatasetXy inputs labels) w
           inputs labels labels KeyError);
    reflexivity.
Defined.

(** X25 at the two batches of sizes 2 and 1. *)
Lemma get_avg_score_returns_two_batches :
  let self := accuracy (constant 1) (Some true) in
  ∃ avg, get_avg_score self (initialize self) two_batches = Ok avg.
Proof.
  intros self.
  apply (get_avg_score_returns self (initialize self) []
           (Epoch ∅
              [ {[ "valid_batch_size" := HInt 2;
                   "accuracy" := HNum (Q2Qc (8 # 10)) ]};
                {[ "valid_batch_size" := HInt 1;
                   "accuracy" := HNum (Q2Qc (6 # 10)) ]} ])).
  - vm_compute. discriminate.
  - vm_compute. repeat constructor; discriminate.
Defined.

(** X26 at an epoch that was not the best: the rate 20 becomes 5. *)
Lemma annealing_or_checkpoint_learner :
  ∃ net',
    Train.on_epoch_end learner = Ok net'
    ∧ Train.history net' = Train.history learner
    ∧ Train.params net' = Train.params learner
    ∧ Train.lr net' = (Q2Qc 20 / Q2Qc 4)%Qc
      ∧ Train.checkpoint net' = None.
Proof.
  apply (annealing_or_checkpoint learner (HBool false)). reflexivity.
Defined.

(** X27 over one epoch end of that learner. *)
Lemma annealing_power_of_4_learner :
  ∃ k : nat,
    (Q2Qc 20 / Q2Qc 4)%Qc = (Q2Qc 20 / Q2Qc 4 ^ k)%Qc.
Proof.
  apply (annealing_power_of_4 learner
           {| Train.lr := (Q2Qc 20 / Q2Qc 4)%Qc;
              Train.history := Train.history learner;
              Train.params := tt;
              Train.checkpoint := None |}).
  apply rtc_once. left. reflexivity.
Defined.

(** X28 at a ["valid_loss"] callback with the direction disabled. *)
Lemma annealing_needs_direction_valid_loss :
  let self :=
    {| scoring := ScoringCallable "nll" (constant 1);
       lower_is_better := None;
       on_train := false;
       name := Some "valid_loss";
       target_extractor := to_numpy |} in
  let w := world [Epoch ∅ []] (initialize self) in
  let w' :=
    (EpochScoring_on_epoch_end no_net_score no_named_scorer self
       (DatasetXy inputs labels) (DatasetXy inputs labels) w).2 in
  Train.on_epoch_end
    {| Train.lr := Q2Qc 20;
       Train.history := history (net w');
       Train.params := tt;
       Train.checkpoint := None |}
  = Raise KeyError.
Proof.
  intros self w w'.
  apply (annealing_needs_direction no_net_score no_named_scorer
           (EpochScoring self) w w').
  - reflexivity.
  - reflexivity.
  - exists (DatasetXy inputs labels), (DatasetXy inputs labels). reflexivity.
  - exists (Epoch ∅ []). split; reflexivity.
  - reflexivity.
Defined.

(** X30 at a dict of an array and a tuple, converted on the GPU. *)
Lemma to_var_idempotent_nested :
  let X :=
    PDict [(PStr "x", PNdarray dt_int [PInt 1; PInt 2]);
           (PStr "lengths", PTuple [PInt 3])] in
  let V :=
    PDict [(PStr "x", PVariable (PTensor true dt_int [PInt 1; PInt 2]));
           (PStr "lengths", PList [PVariable (PTensor true dt_int [PInt 3])])]
  in
  to_var true 3 X true = Some (Ok V)
  ∧ ∃ n, ∀ fuel', (n ≤ fuel')%nat → to_var true fuel' V true = Some (Ok V).
Proof.
  intros X V. split; [reflexivity |].
  apply (to_var_idempotent true 3 X true V).
  reflexivity.
Defined.
